(** * MPK document browser: the client-side view model of [App.js]

    A shallow embedding of the React component [App] (the later of the two
    revisions of [App.js]): its state variables, its event handlers and the
    continuations of its asynchronous requests, followed by the properties of
    the selection / expansion / preview reconciliation logic. *)

From Stdlib Require Import String Ascii List Bool Arith NArith Lia PrimFloat.
From stdpp Require Import base option list gmap strings.
Import ListNotations.
Local Open Scope string_scope.

(** ** JavaScript strings

    A string is a sequence of code units; the embedding covers the code units
    below 256, one [ascii] each. *)
Module JS.

(** [ToBoolean] on a string: only the empty string is falsy. *)
Definition truthy (s : string) : bool :=
  match s with
  | EmptyString => false
  | String _ _ => true
  end.

(** [s.split(sep)] for a one-character separator. *)
Fixpoint split (sep : ascii) (s : string) : list string :=
  match s with
  | EmptyString => [EmptyString]
  | String c s' =>
      if Ascii.eqb c sep then EmptyString :: split sep s'
      else match split sep s' with
           | [] => [String c EmptyString]
           | p :: ps => String c p :: ps
           end
  end.

(** [s.replace(pat, rep)] for a string pattern: the first occurrence only.
    ([rep] is taken literally; the source passes the empty string.) *)
Fixpoint replace (pat rep s : string) : string :=
  if String.prefix pat s
  then rep ++ String.substring (String.length pat) (String.length s - String.length pat) s
  else match s with
       | EmptyString => EmptyString
       | String c s' => String c (replace pat rep s')
       end.

(** White space and line terminators of ECMAScript among the code units
    below 256: TAB, LF, VT, FF, CR, SP and NBSP. *)
Definition is_whitespace (c : ascii) : bool :=
  let n := nat_of_ascii c in
  existsb (Nat.eqb n) [9; 10; 11; 12; 13; 32; 160]%nat.

Fixpoint trimStart (s : string) : string :=
  match s with
  | EmptyString => EmptyString
  | String c s' => if is_whitespace c then trimStart s' else s
  end.

Fixpoint trimEnd (s : string) : string :=
  match s with
  | EmptyString => EmptyString
  | String c s' =>
      match trimEnd s' with
      | EmptyString => if is_whitespace c then EmptyString else String c EmptyString
      | t => String c t
      end
  end.

(** [s.trim()] *)
Definition trim (s : string) : string := trimEnd (trimStart s).

(** Every code unit of [s] is white space (in particular, [s] is empty). *)
Fixpoint all_whitespace (s : string) : bool :=
  match s with
  | EmptyString => true
  | String c s' => is_whitespace c && all_whitespace s'
  end.

End JS.

(** ** Data model *)

Module Document.
Record t := mk {
  id : string;
  name : string;
  relative_path : string;
  path : string;
  file_type : string;
  size : N;
  updated_at : string;
  content : option string
}.
End Document.

Module TreeNode.
Local Set Warnings "-register-all".

Inductive kind := folder | file.

Inductive t := mk {
  path : string;
  name : string;
  type : kind;
  children : list t
}.
End TreeNode.

Module SearchResult.
Record t := mk {
  document : Document.t;
  relevance_score : float;
  snippet : string
}.
End SearchResult.

Module Stats.
Record t := mk { total_documents : N }.
End Stats.

(** ** The state of [App]: one field per [useState] *)

Record AppState := mkAppState {
  fileTree : option TreeNode.t;
  searchQuery : string;
  searchResults : list SearchResult.t;
  isSearching : bool;
  selectedDocument : option Document.t;
  stats : option Stats.t;
  isLoading : bool;
  selectedFilePath : string;
  expandedPaths : gset string;
  previewDocument : option Document.t
}.

(** The initial values passed to [useState]. *)
Definition initialState : AppState :=
  {| fileTree := None; searchQuery := ""; searchResults := [];
     isSearching := false; selectedDocument := None; stats := None;
     isLoading := true; selectedFilePath := ""; expandedPaths := ∅;
     previewDocument := None |}.

Section Setters.
Variable st : AppState.

Definition setFileTree (v : option TreeNode.t) : AppState :=
  {| fileTree := v; searchQuery := searchQuery st;
     searchResults := searchResults st; isSearching := isSearching st;
     selectedDocument := selectedDocument st; stats := stats st;
     isLoading := isLoading st; selectedFilePath := selectedFilePath st;
     expandedPaths := expandedPaths st; previewDocument := previewDocument st |}.

Definition setSearchQuery (v : string) : AppState :=
  {| fileTree := fileTree st; searchQuery := v;
     searchResults := searchResults st; isSearching := isSearching st;
     selectedDocument := selectedDocument st; stats := stats st;
     isLoading := isLoading st; selectedFilePath := selectedFilePath st;
     expandedPaths := expandedPaths st; previewDocument := previewDocument st |}.

Definition setSearchResults (v : list SearchResult.t) : AppState :=
  {| fileTree := fileTree st; searchQuery := searchQuery st;
     searchResults := v; isSearching := isSearching st;
     selectedDocument := selectedDocument st; stats := stats st;
     isLoading := isLoading st; selectedFilePath := selectedFilePath st;
     expandedPaths := expandedPaths st; previewDocument := previewDocument st |}.

Definition setIsSearching (v : bool) : AppState :=
  {| fileTree := fileTree st; searchQuery := searchQuery st;
     searchResults := searchResults st; isSearching := v;
     selectedDocument := selectedDocument st; stats := stats st;
     isLoading := isLoading st; selectedFilePath := selectedFilePath st;
     expandedPaths := expandedPaths st; previewDocument := previewDocument st |}.

Definition setSelectedDocument (v : option Document.t) : AppState :=
  {| fileTree := fileTree st; searchQuery := searchQuery st;
     searchResults := searchResults st; isSearching := isSearching st;
     selectedDocument := v; stats := stats st;
     isLoading := isLoading st; selectedFilePath := selectedFilePath st;
     expandedPaths := expandedPaths st; previewDocument := previewDocument st |}.

Definition setStats (v : option Stats.t) : AppState :=
  {| fileTree := fileTree st; searchQuery := searchQuery st;
     searchResults := searchResults st; isSearching := isSearching st;
     selectedDocument := selectedDocument st; stats := v;
     isLoading := isLoading st; selectedFilePath := selectedFilePath st;
     expandedPaths := expandedPaths st; previewDocument := previewDocument st |}.

Definition setIsLoading (v : bool) : AppState :=
  {| fileTree := fileTree st; searchQuery := searchQuery st;
     searchResults := searchResults st; isSearching := isSearching st;
     selectedDocument := selectedDocument st; stats := stats st;
     isLoading := v; selectedFilePath := selectedFilePath st;
     expandedPaths := expandedPaths st; previewDocument := previewDocument st |}.

Definition setSelectedFilePath (v : string) : AppState :=
  {| fileTree := fileTree st; searchQuery := searchQuery st;
     searchResults := searchResults st; isSearching := isSearching st;
     selectedDocument := selectedDocument st; stats := stats st;
     isLoading := isLoading st; selectedFilePath := v;
     expandedPaths := expandedPaths st; previewDocument := previewDocument st |}.

Definition setExpandedPaths (v : gset string) : AppState :=
  {| fileTree := fileTree st; searchQuery := searchQuery st;
     searchResults := searchResults st; isSearching := isSearching st;
     selectedDocument := selectedDocument st; stats := stats st;
     isLoading := isLoading st; selectedFilePath := selectedFilePath st;
     expandedPaths := v; previewDocument := previewDocument st |}.

Definition setPreviewDocument (v : option Document.t) : AppState :=
  {| fileTree := fileTree st; searchQuery := searchQuery st;
     searchResults := searchResults st; isSearching := isSearching st;
     selectedDocument := selectedDocument st; stats := stats st;
     isLoading := isLoading st; selectedFilePath := selectedFilePath st;
     expandedPaths := expandedPaths st; previewDocument := v |}.
End Setters.

(** ** The expansion set

    [expandedPaths] is a JavaScript [Set] of strings, of which the component
    only uses [has], [add] and [delete] on a copy. *)

Definition isExpanded (path : string) (expanded : gset string) : bool :=
  bool_decide (path ∈ expanded).

(** [handleToggleExpanded], on the set alone. *)
Definition toggle (path : string) (expanded : gset string) : gset string :=
  if isExpanded path expanded
  then expanded ∖ {[path]}
  else {[path]} ∪ expanded.

(** One iteration of the loop of [handleResultClick]: the state is
    [(currentPath, newExpandedPaths)]. *)
Definition expandStep (acc : string * gset string) (part : string)
  : string * gset string :=
  let currentPath :=
    fst acc ++ ((if JS.truthy (fst acc) then "/" else "") ++ part) in
  (currentPath, {[currentPath]} ∪ snd acc).

(** The ancestor expansion that [handleResultClick] performs in line: split
    the path at every slash and add the running join of all parts but the
    last. *)
Definition expandAncestorsOf (path : string) (expanded : gset string)
  : gset string :=
  let pathParts := JS.split "/" path in
  snd (foldl expandStep ("", expanded)
         (take (length pathParts - 1) pathParts)).

(** ** The environment of the component

    Handlers are [async]: a handler runs up to its [await], the request stays
    in flight, and the rest of the handler runs when the promise settles.  The
    world keeps, next to the component state, the requests in flight, each
    with the continuation that awaits it, the pending timers, the console and
    the windows opened. *)

Inductive Request :=
| GetFileTree                                      (* GET  /api/file-tree *)
| GetStats                                         (* GET  /api/stats *)
| PostScan                                         (* POST /api/scan *)
| PostSearch (query : string) (limit : nat)        (* POST /api/search *)
| GetDocumentByPath (relativePath : string).       (* GET  /api/documents/path/... *)

(** The code that waits for a request. *)
Inductive Continuation :=
| K_loadFileTree
| K_loadStats
| K_initialScan
| K_handleSearch
| K_handleFileSelect
| K_triggerRescan.

(** [response.data], as far as the continuations look into it; [None] stands
    for [null] (or, for a search, for a missing [results] field). *)
Inductive ResponseData :=
| TreeData (tree : option TreeNode.t)
| StatsData (s : option Stats.t)
| ScanData
| SearchData (results : option (list SearchResult.t))
| DocumentData (document : option Document.t).

(** How a promise settles: rejected (network failure or an error status such
    as 404), or fulfilled with a response. *)
Inductive Outcome :=
| Rejected
| Fulfilled (data : ResponseData).

(** [console.error(message, error)]; the initial scan logs the error alone. *)
Inductive LogEntry :=
| console_error (message : option string).

Record World := mkWorld {
  app : AppState;
  inflight : list (nat * (Request * Continuation));
  timers : list (nat * nat);          (* timer id, delay in milliseconds *)
  fresh : nat;                        (* next request / timer id *)
  console : list LogEntry;
  windows : list string               (* document ids passed to window.open *)
}.

Definition initialWorld : World :=
  {| app := initialState; inflight := []; timers := []; fresh := 0;
     console := []; windows := [] |}.

Section Effects.
Variable w : World.

(** A state setter applied to the component state. *)
Definition update (f : AppState -> AppState) : World :=
  {| app := f (app w); inflight := inflight w; timers := timers w;
     fresh := fresh w; console := console w; windows := windows w |}.

(** [axios.get] / [axios.post], awaited by [k]. *)
Definition send (r : Request) (k : Continuation) : World :=
  {| app := app w; inflight := inflight w ++ [(fresh w, (r, k))];
     timers := timers w; fresh := S (fresh w); console := console w;
     windows := windows w |}.

Definition setTimeout (delay : nat) : World :=
  {| app := app w; inflight := inflight w;
     timers := timers w ++ [(fresh w, delay)]; fresh := S (fresh w);
     console := console w; windows := windows w |}.

Definition log (message : option string) : World :=
  {| app := app w; inflight := inflight w; timers := timers w;
     fresh := fresh w; console := console w ++ [console_error message];
     windows := windows w |}.

Definition windowOpen (docId : string) : World :=
  {| app := app w; inflight := inflight w; timers := timers w;
     fresh := fresh w; console := console w;
     windows := windows w ++ [docId] |}.

Definition setInflight (l : list (nat * (Request * Continuation))) : World :=
  {| app := app w; inflight := l; timers := timers w; fresh := fresh w;
     console := console w; windows := windows w |}.

Definition setTimers (l : list (nat * nat)) : World :=
  {| app := app w; inflight := inflight w; timers := l; fresh := fresh w;
     console := console w; windows := windows w |}.
End Effects.

(** ** Handlers, up to their first [await] *)

Definition loadFileTree (w : World) : World := send w GetFileTree K_loadFileTree.

Definition loadStats (w : World) : World := send w GetStats K_loadStats.

(** The effect of [useEffect(..., [])]. *)
Definition mount (w : World) : World :=
  send (loadStats (loadFileTree w)) PostScan K_initialScan.

Definition handleSearch (w : World) : World :=
  if negb (JS.truthy (JS.trim (searchQuery (app w))))
  then update w (fun st => setSearchResults st [])
  else send (update w (fun st => setIsSearching st true))
            (PostSearch (searchQuery (app w)) 50) K_handleSearch.

Definition corpusRoot : string := "/var/www/html/MPK/doc/".

Definition handleFileSelect (fileNode : TreeNode.t) (w : World) : World :=
  let w1 := update w (fun st => setSelectedFilePath st (TreeNode.path fileNode)) in
  let relativePath := JS.replace corpusRoot "" (TreeNode.path fileNode) in
  send w1 (GetDocumentByPath relativePath) K_handleFileSelect.

Definition handleResultClick (result : SearchResult.t) (w : World) : World :=
  let doc := SearchResult.document result in
  let w1 := update w (fun st => setSelectedFilePath st (Document.path doc)) in
  let newExpandedPaths :=
    expandAncestorsOf (Document.path doc) (expandedPaths (app w)) in
  let w2 := update w1 (fun st => setExpandedPaths st newExpandedPaths) in
  update w2 (fun st => setPreviewDocument st (Some doc)).

Definition handleDownload (doc : Document.t) (w : World) : World :=
  windowOpen w (Document.id doc).

Definition handleToggleExpanded (path : string) (w : World) : World :=
  update w (fun st => setExpandedPaths st (toggle path (expandedPaths (app w)))).

Definition triggerRescan (w : World) : World := send w PostScan K_triggerRescan.

(** [handleClick] of [FileTreeNode]. *)
Definition handleClick (node : TreeNode.t) (w : World) : World :=
  match TreeNode.type node with
  | TreeNode.folder => handleToggleExpanded (TreeNode.path node) w
  | TreeNode.file => handleFileSelect node w
  end.

(** [onClose] of [DocumentPreviewMain]. *)
Definition closePreview (w : World) : World :=
  update w (fun st => setPreviewDocument st None).

(** The callback given to [setTimeout] by [triggerRescan]. *)
Definition reload (w : World) : World := loadStats (loadFileTree w).

(** ** Handlers, after their [await]

    [resume k o w] runs the rest of the handler that awaited a request, once
    the request settled as [o].  It is [None] when the response data is not
    of the kind the endpoint returns. *)
Definition resume (k : Continuation) (o : Outcome) (w : World) : option World :=
  match k, o with
  | K_loadFileTree, Fulfilled (TreeData tree) =>
      Some (update (update w (fun st => setFileTree st tree))
              (fun st => setIsLoading st false))
  | K_loadFileTree, Rejected =>
      Some (update (log w (Some "Error loading file tree:"))
              (fun st => setIsLoading st false))
  | K_loadStats, Fulfilled (StatsData s) =>
      Some (update w (fun st => setStats st s))
  | K_loadStats, Rejected => Some (log w (Some "Error loading stats:"))
  | K_initialScan, Fulfilled ScanData => Some w
  | K_initialScan, Rejected => Some (log w None)
  | K_handleSearch, Fulfilled (SearchData results) =>
      Some (update (update w (fun st => setSearchResults st (default [] results)))
              (fun st => setIsSearching st false))
  | K_handleSearch, Rejected =>
      Some (update (update (log w (Some "Search error:"))
                      (fun st => setSearchResults st []))
              (fun st => setIsSearching st false))
  | K_handleFileSelect, Fulfilled (DocumentData (Some document)) =>
      Some (update w (fun st => setPreviewDocument st (Some document)))
  | K_handleFileSelect, Fulfilled (DocumentData None) => Some w
  | K_handleFileSelect, Rejected => Some (log w (Some "Error loading document:"))
  | K_triggerRescan, Fulfilled ScanData => Some (setTimeout w 2000)
  | K_triggerRescan, Rejected => Some (log w (Some "Error triggering rescan:"))
  | _, Fulfilled _ => None
  end.

(** The entry of the request [id] among those in flight, and the others. *)
Fixpoint take_out {A : Type} (id : nat) (l : list (nat * A))
  : option (A * list (nat * A)) :=
  match l with
  | [] => None
  | (i, a) :: l' =>
      if Nat.eqb i id then Some (a, l')
      else match take_out id l' with
           | Some (b, rest) => Some (b, (i, a) :: rest)
           | None => None
           end
  end.

(** ** Events and the step function *)

Inductive Event :=
| Mount
| InputChange (value : string)
| SubmitSearch
| ClickNode (node : TreeNode.t)
| ClickResult (result : SearchResult.t)
| ClickDownload (doc : Document.t)
| ClosePreview
| ClickRescan
| Settle (id : nat) (o : Outcome)
| TimerFires (id : nat).

(** One turn of the event loop.  [None]: the event cannot happen in [w] (no
    such request in flight, no such timer pending, ill-typed response). *)
Definition step (w : World) (e : Event) : option World :=
  match e with
  | Mount => Some (mount w)
  | InputChange value => Some (update w (fun st => setSearchQuery st value))
  | SubmitSearch => Some (handleSearch w)
  | ClickNode node => Some (handleClick node w)
  | ClickResult result => Some (handleResultClick result w)
  | ClickDownload doc => Some (handleDownload doc w)
  | ClosePreview => Some (closePreview w)
  | ClickRescan => Some (triggerRescan w)
  | Settle id o =>
      match take_out id (inflight w) with
      | Some ((_, k), rest) => resume k o (setInflight w rest)
      | None => None
      end
  | TimerFires id =>
      match take_out id (timers w) with
      | Some (_, rest) => Some (reload (setTimers w rest))
      | None => None
      end
  end.

Fixpoint run (w : World) (es : list Event) : option World :=
  match es with
  | [] => Some w
  | e :: es' =>
      match step w e with
      | Some w' => run w' es'
      | None => None
      end
  end.

(** ** Rendering *)

(** What [renderMainContent] returns. *)
Inductive MainContent :=
| Preview (document : Document.t)
| Loading
| Results (results : list SearchResult.t) (query : string)
| NoResults (query : string)
| Welcome.

Definition renderMainContent (st : AppState) : MainContent :=
  match previewDocument st with
  | Some document => Preview document
  | None =>
      if isSearching st then Loading
      else if Nat.ltb 0 (length (searchResults st))
           then Results (searchResults st) (searchQuery st)
      else if JS.truthy (searchQuery st) then NoResults (searchQuery st)
      else Welcome
  end.

(** The nodes that [FileTreeNode] renders for [node]: the node itself and,
    for an expanded folder, what its children render. *)
Fixpoint renderTree (expanded : gset string) (node : TreeNode.t)
  : list TreeNode.t :=
  node ::
  match TreeNode.type node with
  | TreeNode.folder =>
      if isExpanded (TreeNode.path node) expanded
      then flat_map (renderTree expanded) (TreeNode.children node)
      else []
  | TreeNode.file => []
  end.

(** What [App] returns. *)
Inductive Screen :=
| AppLoading
| AppView (sidebar : list TreeNode.t) (rescanButton : bool) (main : MainContent).

Definition render (st : AppState) : Screen :=
  if isLoading st then AppLoading
  else AppView
         (match fileTree st with
          | Some root => renderTree (expandedPaths st) root
          | None => []
          end)
         (bool_decide (is_Some (stats st)))
         (renderMainContent st).

(** ** The view reconciler, as specified

    The five states of the main panel and the priority order among the four
    conditions, written after the specification; [renderMainContent] is
    compared with it below. *)
Module ViewReconciler.
Inductive State := Preview | Loading | Results | NoResults | Welcome.

Definition resolve
    (previewSet searching resultsNonEmpty queryNonEmpty : bool) : State :=
  if previewSet then Preview
  else if searching then Loading
  else if resultsNonEmpty then Results
  else if queryNonEmpty then NoResults
  else Welcome.
End ViewReconciler.

(** The state that a rendered main panel shows. *)
Definition stateOf (m : MainContent) : ViewReconciler.State :=
  match m with
  | Preview _ => ViewReconciler.Preview
  | Loading => ViewReconciler.Loading
  | Results _ _ => ViewReconciler.Results
  | NoResults _ => ViewReconciler.NoResults
  | Welcome => ViewReconciler.Welcome
  end.

(** The four conditions, read off the component state. *)
Definition resolveState (st : AppState) : ViewReconciler.State :=
  ViewReconciler.resolve
    (bool_decide (is_Some (previewDocument st)))
    (isSearching st)
    (bool_decide (searchResults st ≠ []))
    (bool_decide (searchQuery st ≠ "")).

(** A folder of the tree, of which only the path matters here. *)
Definition folderAt (path : string) : TreeNode.t :=
  TreeNode.mk path path TreeNode.folder [].

(** A sequence of clicks on folders, one re-render after each. *)
Definition toggleAll (paths : list string) (w : World) : World :=
  foldl (fun w' path => handleToggleExpanded path w') w paths.

(** ** Ancestors of a path, as specified

    A proper ancestor of a path is a prefix of it that ends where a slash
    begins. *)
Definition properAncestor (q path : string) : Prop :=
  exists rest, path = q ++ "/" ++ rest.

(** [parts.join('/')], for a non-empty list of parts. *)
Definition join (parts : list string) : string :=
  match parts with
  | [] => ""
  | p :: ps => foldl (fun cur part => cur ++ "/" ++ part) p ps
  end.

(** ** Well-formed worlds

    Request and timer identifiers are handed out in increasing order, so
    every identifier in use is below the next fresh one. *)
Definition ids_below {A : Type} (n : nat) (l : list (nat * A)) : Prop :=
  Forall (fun e => fst e < n) l.

Definition wf (w : World) : Prop :=
  ids_below (fresh w) (inflight w) /\ ids_below (fresh w) (timers w).

(** The ways in which the backend reports that there is no document: an
    error status (the promise is rejected) or an empty body. *)
Definition notFound (o : Outcome) : Prop :=
  o = Rejected \/ o = Fulfilled (DocumentData None).

(** [settles id e]: the event [e] is the settling of request [id]. *)
Definition settles (id : nat) (e : Event) : bool :=
  match e with
  | Settle i _ => Nat.eqb i id
  | _ => false
  end.

(** None of the events settles request [id]. *)
Definition unsettled (id : nat) (es : list Event) : bool :=
  forallb (fun e => negb (settles id e)) es.

(** [fires id e]: the event [e] is the expiry of timer [id]. *)
Definition fires (id : nat) (e : Event) : bool :=
  match e with
  | TimerFires i => Nat.eqb i id
  | _ => false
  end.

(** ** Sample data *)
Module Sample.
Definition docA : Document.t :=
  {| Document.id := "17"; Document.name := "a.txt";
     Document.relative_path := "a.txt";
     Document.path := "/var/www/html/MPK/doc/a.txt";
     Document.file_type := "txt"; Document.size := 5%N;
     Document.updated_at := "2024-03-01T10:00:00";
     Document.content := Some "alpha" |}.

Definition docB : Document.t :=
  {| Document.id := "18"; Document.name := "b.txt";
     Document.relative_path := "b.txt";
     Document.path := "/var/www/html/MPK/doc/b.txt";
     Document.file_type := "txt"; Document.size := 4%N;
     Document.updated_at := "2024-03-02T10:00:00";
     Document.content := Some "beta" |}.

Definition nodeA : TreeNode.t :=
  TreeNode.mk "/var/www/html/MPK/doc/a.txt" "a.txt" TreeNode.file [].

Definition nodeB : TreeNode.t :=
  TreeNode.mk "/var/www/html/MPK/doc/b.txt" "b.txt" TreeNode.file [].

Definition root : TreeNode.t :=
  TreeNode.mk "/var/www/html/MPK/doc" "doc" TreeNode.folder [nodeA; nodeB].

Definition twoDocuments : Stats.t := {| Stats.total_documents := 2%N |}.

Definition resultA : SearchResult.t :=
  {| SearchResult.document := docA; SearchResult.relevance_score := 0.5%float;
     SearchResult.snippet := "alpha" |}.

(** The application once mounted: tree, statistics and initial scan have
    all answered. *)
Definition mounted : list Event :=
  [Mount;
   Settle 0 (Fulfilled (TreeData (Some root)));
   Settle 1 (Fulfilled (StatsData (Some twoDocuments)));
   Settle 2 (Fulfilled ScanData)].

(** A document below the folders [/a] and [/a/b], and the tree it is in. *)
Definition docC : Document.t :=
  {| Document.id := "7"; Document.name := "c.txt";
     Document.relative_path := "b/c.txt"; Document.path := "/a/b/c.txt";
     Document.file_type := "txt"; Document.size := 5%N;
     Document.updated_at := "2024-03-03T10:00:00";
     Document.content := Some "gamma" |}.

Definition resultC : SearchResult.t :=
  {| SearchResult.document := docC; SearchResult.relevance_score := 0.5%float;
     SearchResult.snippet := "gamma" |}.

Definition nodeC : TreeNode.t :=
  TreeNode.mk "/a/b/c.txt" "c.txt" TreeNode.file [].

Definition folderAB : TreeNode.t :=
  TreeNode.mk "/a/b" "b" TreeNode.folder [nodeC].

Definition folderA : TreeNode.t :=
  TreeNode.mk "/a" "a" TreeNode.folder [folderAB].
End Sample.

(** ** Scenarios *)
Module Scenario.
Import Sample.

(** The application is mounted and the root folder is opened, so that both
    files are on screen.  (The requests of [mounted] took the identifiers
    0 to 2.) *)
Definition opened : list Event := mounted ++ [ClickNode root].

(** Two files are clicked one after the other and the answer for the
    first arrives after the answer for the second. *)
Definition race : list Event :=
  [ClickNode nodeA; ClickNode nodeB;
   Settle 4 (Fulfilled (DocumentData (Some docB)));
   Settle 3 (Fulfilled (DocumentData (Some docA)))].

(** A search that found one document, and the same query submitted once
    more. *)
Definition searchedTwice : list Event :=
  mounted ++
  [InputChange "alpha"; SubmitSearch;
   Settle 3 (Fulfilled (SearchData (Some [resultA])));
   SubmitSearch].

(** The tree holds [/a/b/c.txt]; a search finds that document. *)
Definition found : list Event :=
  [Mount;
   Settle 0 (Fulfilled (TreeData (Some folderA)));
   Settle 1 (Fulfilled (StatsData (Some twoDocuments)));
   Settle 2 (Fulfilled ScanData);
   InputChange "gamma"; SubmitSearch;
   Settle 3 (Fulfilled (SearchData (Some [resultC])))].
End Scenario.

(** ** File icons: [getIcon] of [FileTreeNode] *)

(** The six emoji that [getIcon] returns, by their names. *)
Inductive Icon :=
| open_file_folder
| file_folder
| page_facing_up
| memo
| bar_chart
| page_with_curl.

(** [toLowerCase] on one code unit below 256: the letters A to Z and the
    accented capitals from U+00C0 to U+00DE (the multiplication sign U+00D7
    apart) move up by 32. *)
Definition lowerCaseChar (c : ascii) : ascii :=
  let n := nat_of_ascii c in
  if (Nat.leb 65 n && Nat.leb n 90)
     || (Nat.leb 192 n && Nat.leb n 222 && negb (Nat.eqb n 215))
  then ascii_of_nat (n + 32)
  else c.

Fixpoint toLowerCase (s : string) : string :=
  match s with
  | EmptyString => EmptyString
  | String c s' => String (lowerCaseChar c) (toLowerCase s')
  end.

(** [s.split(sep).pop()]: the last part ([split] never returns an empty
    array). *)
Definition splitPop (sep : ascii) (s : string) : string :=
  List.last (JS.split sep s) "".

(** The [switch] of [getIcon]. *)
Definition iconOfExtension (ext : string) : Icon :=
  if String.eqb ext "pdf" then page_facing_up
  else if String.eqb ext "docx" || String.eqb ext "doc" then memo
  else if String.eqb ext "xlsx" || String.eqb ext "xls" then bar_chart
  else if String.eqb ext "txt" then page_with_curl
  else page_facing_up.

Definition getIcon (node : TreeNode.t) (expanded : gset string) : Icon :=
  match TreeNode.type node with
  | TreeNode.folder =>
      if isExpanded (TreeNode.path node) expanded
      then open_file_folder else file_folder
  | TreeNode.file =>
      iconOfExtension (toLowerCase (splitPop "." (TreeNode.name node)))
  end.

(** The code unit [c] occurs in [s]. *)
Fixpoint occurs (c : ascii) (s : string) : bool :=
  match s with
  | EmptyString => false
  | String x s' => Ascii.eqb x c || occurs c s'
  end.

(** ** The tree as a whole *)

(** Every node of a tree, parents before children. *)
Fixpoint allNodes (node : TreeNode.t) : list TreeNode.t :=
  node :: flat_map allNodes (TreeNode.children node).

Definition isFolder (node : TreeNode.t) : bool :=
  match TreeNode.type node with
  | TreeNode.folder => true
  | TreeNode.file => false
  end.

(** The paths of the folders of a tree. *)
Definition folderPaths (node : TreeNode.t) : list string :=
  map TreeNode.path (List.filter isFolder (allNodes node)).

(** ** The modal preview

    [App] renders [DocumentPreviewModal] for [selectedDocument], and the
    modal returns [null] without a document: what is on screen is the
    document, if any. *)
Definition renderModal (st : AppState) : option Document.t :=
  selectedDocument st.

(** [s] begins with a slash. *)
Definition beginsWithSlash (s : string) : bool :=
  match s with
  | EmptyString => false
  | String c _ => Ascii.eqb c "/"
  end.

(** ** What the screen offers

    The user events that the rendered view can produce in a state: the
    controls exist only in the rendered body, the rescan button only next to
    loaded statistics, tree nodes and results only where they are rendered,
    the close button only on a preview; the submit button of the search form
    is disabled while [isSearching] is set, and a form whose submit button is
    disabled is not submitted.  The effect of mounting runs once, before any
    of them; answers and timers come from outside. *)
Definition offered (st : AppState) (e : Event) : Prop :=
  match e with
  | Mount => False
  | InputChange _ => isLoading st = false
  | SubmitSearch => isLoading st = false /\ isSearching st = false
  | ClickNode node =>
      isLoading st = false
      /\ exists root, fileTree st = Some root
                      /\ In node (renderTree (expandedPaths st) root)
  | ClickResult result =>
      isLoading st = false
      /\ exists results query,
           renderMainContent st = Results results query /\ In result results
  | ClickDownload doc =>
      isLoading st = false
      /\ (renderMainContent st = Preview doc
          \/ exists results query result,
               renderMainContent st = Results results query
               /\ In result results /\ SearchResult.document result = doc)
  | ClosePreview => isLoading st = false /\ is_Some (previewDocument st)
  | ClickRescan => isLoading st = false /\ is_Some (stats st)
  | Settle _ _ | TimerFires _ => True
  end.

(** A sequence of events each of which is offered when it happens. *)
Inductive plays : World -> list Event -> World -> Prop :=
| plays_nil w : plays w [] w
| plays_cons w e w1 es w2 :
    offered (app w) e -> step w e = Some w1 -> plays w1 es w2 ->
    plays w (e :: es) w2.

(** No statistics, and nothing under way that could bring any. *)
Definition noStatsAhead (w : World) : Prop :=
  stats (app w) = None
  /\ timers w = []
  /\ Forall (fun e => snd (snd e) <> K_loadStats /\ snd (snd e) <> K_triggerRescan)
       (inflight w).

Definition awaitedByHandleSearch (e : nat * (Request * Continuation)) : bool :=
  match snd (snd e) with
  | K_handleSearch => true
  | _ => false
  end.

(** The number of search requests in flight. *)
Definition searchesInFlight (w : World) : nat :=
  length (List.filter awaitedByHandleSearch (inflight w)).

(** [isSearching] is set exactly while one search request is in flight, and
    there is never more than one. *)
Definition oneSearch (w : World) : Prop :=
  searchesInFlight w = if isSearching (app w) then 1 else 0.

(** * Properties *)

(** ** Strings *)

Section StringFacts.

Lemma trimStart_whitespace s :
  JS.all_whitespace s = true -> JS.trimStart s = "".
Proof.
  induction s as [|c s IH]; simpl; [reflexivity|].
  intros [Hc Hs]%andb_true_iff. rewrite Hc. auto.
Qed.

Lemma trimStart_head s c t :
  JS.trimStart s = String c t -> JS.is_whitespace c = false.
Proof.
  induction s as [|a s IH]; simpl; [discriminate|].
  destruct (JS.is_whitespace a) eqn:Ha; [exact IH|].
  intros [= -> _]. exact Ha.
Qed.

Lemma trimStart_empty s :
  JS.trimStart s = "" -> JS.all_whitespace s = true.
Proof.
  induction s as [|a s IH]; simpl; [reflexivity|].
  destruct (JS.is_whitespace a); [auto | discriminate].
Qed.

Lemma trimEnd_empty s :
  JS.trimEnd s = "" -> JS.all_whitespace s = true.
Proof.
  induction s as [|a s IH]; simpl; [reflexivity|].
  destruct (JS.trimEnd s) eqn:Hs; [|discriminate].
  destruct (JS.is_whitespace a); [auto | discriminate].
Qed.

(** [!s.trim()] holds exactly for the strings made of white space only. *)
Lemma trim_falsy s :
  JS.truthy (JS.trim s) = false <-> JS.all_whitespace s = true.
Proof.
  unfold JS.trim. split.
  - intros H. apply trimStart_empty.
    destruct (JS.trimStart s) as [|c t] eqn:Hs; [reflexivity|].
    pose proof (trimStart_head _ _ _ Hs) as Hc.
    destruct (JS.trimEnd (String c t)) eqn:He; [|discriminate H].
    apply trimEnd_empty in He. simpl in He. rewrite Hc in He. discriminate.
  - intros H. rewrite (trimStart_whitespace _ H). reflexivity.
Qed.

Lemma substring_all s : String.substring 0 (String.length s) s = s.
Proof. induction s as [|c s IH]; simpl; [reflexivity | by rewrite IH]. Qed.

Lemma substring_skip p s n :
  String.substring (String.length p) n (p ++ s) = String.substring 0 n s.
Proof. induction p as [|c p IH]; simpl; [reflexivity | exact IH]. Qed.

Lemma prefix_append p s : String.prefix p (p ++ s) = true.
Proof.
  induction p as [|c p IH]; simpl; [by destruct s|].
  destruct (ascii_dec c c); [exact IH | congruence].
Qed.

Lemma length_append (p s : string) :
  String.length (p ++ s) = String.length p + String.length s.
Proof. induction p as [|c p IH]; simpl; [reflexivity | by rewrite IH]. Qed.

(** Replacing a prefix by the empty string strips it. *)
Lemma replace_prefix p s : JS.replace p "" (p ++ s) = s.
Proof.
  assert (H : forall t, String.prefix p t = true ->
            JS.replace p "" t =
            String.substring (String.length p)
              (String.length t - String.length p) t).
  { intros t Ht. destruct t; cbn [JS.replace]; rewrite Ht; reflexivity. }
  rewrite H by apply prefix_append.
  rewrite length_append, substring_skip.
  replace (String.length p + String.length s - String.length p)
    with (String.length s) by lia.
  apply substring_all.
Qed.

End StringFacts.

(** ** The expansion set *)

Section Expansion.

Lemma isExpanded_toggle p q (s : gset string) :
  isExpanded p (toggle q s) =
  if decide (q = p) then negb (isExpanded p s) else isExpanded p s.
Proof.
  unfold toggle, isExpanded.
  destruct (decide (q = p)) as [->|Hne].
  - destruct (bool_decide (p ∈ s)) eqn:Hp.
    + apply bool_decide_eq_true in Hp. simpl.
      apply bool_decide_eq_false.
      rewrite elem_of_difference, elem_of_singleton. tauto.
    + apply bool_decide_eq_false in Hp. simpl.
      apply bool_decide_eq_true.
      rewrite elem_of_union, elem_of_singleton. tauto.
  - destruct (bool_decide (q ∈ s)); apply bool_decide_ext.
    + rewrite elem_of_difference, elem_of_singleton. intuition congruence.
    + rewrite elem_of_union, elem_of_singleton. intuition congruence.
Qed.

Lemma expandedPaths_handleToggleExpanded q w :
  expandedPaths (app (handleToggleExpanded q w)) =
  toggle q (expandedPaths (app w)).
Proof. reflexivity. Qed.

(** Clicking folders one after the other is [toggleAll] on their paths. *)
Lemma run_folder_clicks ps : forall w,
  run w (map (fun path => ClickNode (folderAt path)) ps) = Some (toggleAll ps w).
Proof.
  induction ps as [|q ps IH]; intros w; [reflexivity|].
  cbn [map run step]. apply IH.
Qed.

Lemma isExpanded_toggleAll ps : forall p w,
  isExpanded p (expandedPaths (app (toggleAll ps w))) =
  xorb (isExpanded p (expandedPaths (app w)))
       (Nat.odd (count_occ string_dec ps p)).
Proof.
  unfold toggleAll.
  induction ps as [|q ps IH]; intros p w; simpl.
  - by rewrite xorb_false_r.
  - rewrite IH, expandedPaths_handleToggleExpanded, isExpanded_toggle.
    destruct (string_dec q p) as [->|Hne].
    + rewrite decide_True by reflexivity. rewrite Nat.odd_succ, <- Nat.negb_odd.
      by destruct (isExpanded p _), (Nat.odd _).
    + by rewrite decide_False.
Qed.

End Expansion.

(** C5: after any sequence of folder toggles on arbitrary paths, the
    membership of [p] is its initial membership flipped once per toggle of
    [p] (so, from the empty set, [p] is expanded exactly when it was toggled
    an odd number of times), and a toggle of another path leaves the
    membership of [p] alone. *)
Theorem toggle_parity (ps : list string) (p : string) (w : World) :
  isExpanded p (expandedPaths (app (toggleAll ps w))) =
    xorb (isExpanded p (expandedPaths (app w)))
         (Nat.odd (count_occ string_dec ps p))
  /\ (expandedPaths (app w) = ∅ ->
      isExpanded p (expandedPaths (app (toggleAll ps w))) =
        Nat.odd (count_occ string_dec ps p))
  /\ (forall q, q <> p ->
      isExpanded p (expandedPaths (app (handleToggleExpanded q w))) =
        isExpanded p (expandedPaths (app w))).
Proof.
  split; [apply isExpanded_toggleAll|]. split.
  - intros He. rewrite isExpanded_toggleAll, He. reflexivity.
  - intros q Hq.
    rewrite expandedPaths_handleToggleExpanded, isExpanded_toggle.
    by rewrite decide_False.
Qed.

Lemma toggle_parity_witness :
  isExpanded "/a"
    (expandedPaths (app (toggleAll ["/a"; "/b"; "/a"; "/a"] initialWorld))) = true
  /\ isExpanded "/a"
       (expandedPaths (app (handleToggleExpanded "/b" initialWorld))) = false.
Proof.
  destruct (toggle_parity ["/a"; "/b"; "/a"; "/a"] "/a" initialWorld)
    as (_ & Hempty & Hother).
  split.
  - rewrite Hempty; reflexivity.
  - rewrite (Hother "/b"); [reflexivity | discriminate].
Defined.

(** ** The main panel *)

Section MainPanel.

Lemma renderMainContent_resolve st :
  stateOf (renderMainContent st) = resolveState st.
Proof.
  unfold renderMainContent, resolveState, ViewReconciler.resolve.
  destruct (previewDocument st) as [d|]; [reflexivity|].
  rewrite bool_decide_eq_false_2 by (intros [? [=]]).
  destruct (isSearching st); [reflexivity|].
  destruct (searchResults st) as [|r rs]; simpl.
  - destruct (searchQuery st); reflexivity.
  - reflexivity.
Qed.

End MainPanel.

(** C2: the main panel shows the first state, in the order Preview, Loading,
    Results, NoResults, Welcome, whose condition holds; a set preview wins
    even while a search is in flight and results are present; and whenever
    [App] renders its body, the main panel is what [renderMainContent]
    returns. *)
Theorem renderMainContent_priority (st : AppState) :
  stateOf (renderMainContent st) = resolveState st
  /\ (forall d, previewDocument st = Some d -> isSearching st = true ->
       searchResults st <> [] -> renderMainContent st = Preview d)
  /\ (isLoading st = false ->
      exists sidebar rescan, render st = AppView sidebar rescan (renderMainContent st)).
Proof.
  split; [apply renderMainContent_resolve|]. split.
  - intros d Hd _ _. unfold renderMainContent. by rewrite Hd.
  - intros Hl. unfold render. rewrite Hl. eauto.
Qed.

Lemma renderMainContent_priority_witness :
  let st := setIsLoading
              (setIsSearching
                 (setSearchResults
                    (setPreviewDocument initialState (Some Sample.docA))
                    [Sample.resultA]) true) false in
  renderMainContent st = Preview Sample.docA
  /\ exists sidebar rescan, render st = AppView sidebar rescan (Preview Sample.docA).
Proof.
  intros st.
  destruct (renderMainContent_priority st) as (_ & Hpreview & Hrender).
  assert (Hp : renderMainContent st = Preview Sample.docA).
  { apply Hpreview; [reflexivity | reflexivity | discriminate]. }
  split; [exact Hp|].
  rewrite <- Hp. apply Hrender. reflexivity.
Defined.

(** The two boundary cases of the specification. *)
Example renderMainContent_welcome :
  renderMainContent initialState = Welcome.
Proof. reflexivity. Qed.

Example renderMainContent_no_results :
  renderMainContent (setSearchQuery initialState "report") = NoResults "report".
Proof. reflexivity. Qed.

(** C10: closing the preview clears [previewDocument] and nothing else, in
    the component or around it, so the main panel falls back to the state
    that the priority order gives for the remaining search state, which is
    not the preview. *)
Theorem closePreview_frame (w : World) :
  step w ClosePreview = Some (closePreview w)
  /\ app (closePreview w) = setPreviewDocument (app w) None
  /\ previewDocument (app (closePreview w)) = None
  /\ searchQuery (app (closePreview w)) = searchQuery (app w)
  /\ searchResults (app (closePreview w)) = searchResults (app w)
  /\ isSearching (app (closePreview w)) = isSearching (app w)
  /\ selectedFilePath (app (closePreview w)) = selectedFilePath (app w)
  /\ expandedPaths (app (closePreview w)) = expandedPaths (app w)
  /\ (inflight (closePreview w), timers (closePreview w)) = (inflight w, timers w)
  /\ stateOf (renderMainContent (app (closePreview w))) =
       ViewReconciler.resolve false (isSearching (app w))
         (bool_decide (searchResults (app w) ≠ []))
         (bool_decide (searchQuery (app w) ≠ ""))
  /\ stateOf (renderMainContent (app (closePreview w))) <> ViewReconciler.Preview.
Proof.
  repeat (split; [reflexivity|]).
  assert (H : stateOf (renderMainContent (app (closePreview w))) =
              ViewReconciler.resolve false (isSearching (app w))
                (bool_decide (searchResults (app w) ≠ []))
                (bool_decide (searchQuery (app w) ≠ ""))).
  { rewrite renderMainContent_resolve. reflexivity. }
  split; [exact H|]. rewrite H. unfold ViewReconciler.resolve.
  destruct (isSearching (app w)), (bool_decide (searchResults (app w) ≠ [])),
    (bool_decide (searchQuery (app w) ≠ "")); discriminate.
Qed.

(** ** Search submission *)

(** C7: submitting a query that is empty or made of white space only sends
    nothing, clears the result list and changes nothing else; in particular
    [isSearching] keeps its value. *)
Theorem handleSearch_blank_query (w : World) :
  JS.all_whitespace (searchQuery (app w)) = true ->
  step w SubmitSearch = Some (handleSearch w)
  /\ inflight (handleSearch w) = inflight w
  /\ fresh (handleSearch w) = fresh w
  /\ timers (handleSearch w) = timers w
  /\ console (handleSearch w) = console w
  /\ searchResults (app (handleSearch w)) = []
  /\ isSearching (app (handleSearch w)) = isSearching (app w)
  /\ app (handleSearch w) = setSearchResults (app w) [].
Proof.
  intros Hq. apply trim_falsy in Hq.
  unfold step, handleSearch. rewrite Hq. simpl.
  repeat (split; [reflexivity|]). reflexivity.
Qed.

Lemma handleSearch_blank_query_witness :
  let w := update (update initialWorld (fun st => setSearchQuery st "  "))
             (fun st => setSearchResults st [Sample.resultA]) in
  inflight (handleSearch w) = [] /\ searchResults (app (handleSearch w)) = [].
Proof.
  intros w.
  destruct (handleSearch_blank_query w eq_refl) as (_ & Hi & _ & _ & _ & Hr & _).
  split; [exact Hi | exact Hr].
Defined.

(** A query with anything else in it is sent, with a limit of 50. *)
Lemma handleSearch_sends (w : World) :
  JS.all_whitespace (searchQuery (app w)) = false ->
  handleSearch w =
  send (update w (fun st => setIsSearching st true))
       (PostSearch (searchQuery (app w)) 50) K_handleSearch.
Proof.
  intros Hq. unfold handleSearch.
  destruct (JS.truthy (JS.trim (searchQuery (app w)))) eqn:Ht; [reflexivity|].
  apply trim_falsy in Ht. congruence.
Qed.

(** ** Requests in flight *)

Section Identifiers.
Context {A : Type}.
Implicit Types (l rest : list (nat * A)) (a : A).

Lemma ids_below_mono n m l : n <= m -> ids_below n l -> ids_below m l.
Proof.
  intros Hle Hl. unfold ids_below in *.
  eapply Forall_impl; [exact Hl|]. simpl. intros e He. lia.
Qed.

Lemma ids_below_snoc n l a : ids_below n l -> ids_below (S n) (l ++ [(n, a)]).
Proof.
  intros Hl. apply Forall_app. split.
  - by apply (ids_below_mono n); [lia|].
  - repeat constructor.
Qed.

Lemma take_out_ids_below id n l : forall a rest,
  take_out id l = Some (a, rest) -> ids_below n l -> ids_below n rest.
Proof.
  induction l as [|[i b] l IH]; intros a rest; simpl; [discriminate|].
  intros Ht Hl. apply Forall_cons in Hl as [Hi Hl].
  destruct (Nat.eqb i id); [by injection Ht as <- <-|].
  destruct (take_out id l) as [[c r]|]; [|discriminate].
  injection Ht as <- <-. apply Forall_cons. split; [exact Hi|].
  by apply (IH c).
Qed.

(** An identifier that is not in use before is found where it was put. *)
Lemma take_out_app n l a l' :
  ids_below n l -> take_out n (l ++ (n, a) :: l') = Some (a, (l ++ l')%list).
Proof.
  induction l as [|[i b] l IH]; simpl; intros Hl.
  - by rewrite Nat.eqb_refl.
  - apply Forall_cons in Hl as [Hi Hl]. simpl in Hi.
    rewrite (proj2 (Nat.eqb_neq i n)) by lia.
    by rewrite IH.
Qed.

(** A request just sent is found under its identifier, and taking it out
    leaves the older ones. *)
Lemma take_out_new n l a :
  ids_below n l -> take_out n (l ++ [(n, a)]) = Some (a, l).
Proof. intros Hl. by rewrite take_out_app, app_nil_r. Qed.

(** A request in flight stays so when another one is added ... *)
Lemma take_out_snoc id l a rest e :
  take_out id l = Some (a, rest) ->
  take_out id (l ++ [e]) = Some (a, (rest ++ [e])%list).
Proof.
  revert a rest. induction l as [|[i b] l IH]; intros a rest; simpl;
    [discriminate|].
  destruct (Nat.eqb i id); [by intros [= <- <-]|].
  destruct (take_out id l) as [[c r]|]; [|discriminate].
  intros [= <- <-]. by rewrite (IH c r).
Qed.

(** ... and when another one is taken out. *)
Lemma take_out_other id id' l : forall a rest b rest',
  id <> id' ->
  take_out id l = Some (a, rest) ->
  take_out id' l = Some (b, rest') ->
  exists rest'', take_out id rest' = Some (a, rest'').
Proof.
  induction l as [|[i c] l IH]; intros a rest b rest' Hne; simpl;
    [discriminate|].
  destruct (Nat.eqb i id) eqn:Hi, (Nat.eqb i id') eqn:Hi'.
  - apply Nat.eqb_eq in Hi. apply Nat.eqb_eq in Hi'. congruence.
  - intros [= <- <-].
    destruct (take_out id' l) as [[d r]|]; [|discriminate].
    intros [= <- <-]. simpl. rewrite Hi. by eexists.
  - intros Ha [= <- <-].
    destruct (take_out id l) as [[d r]|]; [|discriminate].
    injection Ha as <- <-. by eexists.
  - destruct (take_out id l) as [[d r]|] eqn:Hd; [|discriminate].
    destruct (take_out id' l) as [[d' r']|] eqn:Hd'; [|discriminate].
    intros [= <- <-] [= <- <-]. simpl. rewrite Hi.
    destruct (IH d r d' r' Hne eq_refl eq_refl) as [r'' ->]. by eexists.
Qed.

End Identifiers.

Section WellFormed.

Lemma wf_initialWorld : wf initialWorld.
Proof. split; constructor. Qed.

Lemma wf_update w f : wf w -> wf (update w f).
Proof. exact id. Qed.

Lemma wf_log w m : wf w -> wf (log w m).
Proof. exact id. Qed.

Lemma wf_windowOpen w d : wf w -> wf (windowOpen w d).
Proof. exact id. Qed.

Lemma wf_send w r k : wf w -> wf (send w r k).
Proof.
  intros [Hi Ht]. split; simpl.
  - by apply ids_below_snoc.
  - by apply (ids_below_mono (fresh w)); [lia|].
Qed.

Lemma wf_setTimeout w d : wf w -> wf (setTimeout w d).
Proof.
  intros [Hi Ht]. split; simpl.
  - by apply (ids_below_mono (fresh w)); [lia|].
  - by apply ids_below_snoc.
Qed.

Lemma wf_resume k o w w' : resume k o w = Some w' -> wf w -> wf w'.
Proof.
  intros Hr Hw.
  destruct k, o as [|[ | | | | [|] ]]; simpl in Hr; try discriminate;
    injection Hr as <-;
    auto using wf_update, wf_log, wf_setTimeout.
Qed.

Lemma wf_step w e w' : step w e = Some w' -> wf w -> wf w'.
Proof.
  intros Hs Hw. destruct e; simpl in Hs; try injection Hs as <-.
  - by repeat apply wf_send.
  - by apply wf_update.
  - unfold handleSearch. destruct (negb _); [by apply wf_update|].
    by apply wf_send, wf_update.
  - unfold handleClick. destruct (TreeNode.type node).
    + by apply wf_update.
    + by apply wf_send, wf_update.
  - by repeat apply wf_update.
  - by apply wf_windowOpen.
  - by apply wf_update.
  - by apply wf_send.
  - destruct (take_out id (inflight w)) as [[[r k] rest]|] eqn:Ht;
      [|discriminate].
    apply (wf_resume _ _ _ _ Hs). destruct Hw as [Hi Htm]. split; simpl.
    + by apply (take_out_ids_below _ _ _ _ _ Ht).
    + exact Htm.
  - destruct (take_out id (timers w)) as [[d rest]|] eqn:Ht; [|discriminate].
    injection Hs as <-. repeat apply wf_send.
    destruct Hw as [Hi Htm]. split; simpl.
    + exact Hi.
    + by apply (take_out_ids_below _ _ _ _ _ Ht).
Qed.

Lemma wf_run es : forall w w', run w es = Some w' -> wf w -> wf w'.
Proof.
  induction es as [|e es IH]; intros w w'; simpl.
  - by intros [= <-].
  - destruct (step w e) as [w1|] eqn:Hs; [|discriminate].
    intros Hr Hw. apply (IH _ _ Hr). by apply (wf_step _ _ _ Hs).
Qed.

(** Every world the application can be in is well formed. *)
Lemma wf_reachable es w : run initialWorld es = Some w -> wf w.
Proof. intros Hr. apply (wf_run _ _ _ Hr), wf_initialWorld. Qed.

End WellFormed.

Section InFlight.

Lemma inflight_resume k o w w' :
  resume k o w = Some w' -> inflight w' = inflight w.
Proof.
  intros Hr.
  destruct k, o as [|[ | | | | [|] ]]; simpl in Hr; try discriminate;
    by injection Hr as <-.
Qed.

(** A request stays in flight, awaited by the same continuation, until the
    event that settles it. *)
Lemma inflight_step w e w' id x rest :
  step w e = Some w' ->
  settles id e = false ->
  take_out id (inflight w) = Some (x, rest) ->
  exists rest', take_out id (inflight w') = Some (x, rest').
Proof.
  intros Hs He Ht. destruct e; simpl in Hs; try injection Hs as <-; simpl.
  - eexists. by do 3 (apply take_out_snoc).
  - by eexists.
  - unfold handleSearch. destruct (negb _); simpl; [by eexists|].
    eexists. by apply take_out_snoc.
  - unfold handleClick. destruct (TreeNode.type node); simpl; [by eexists|].
    eexists. by apply take_out_snoc.
  - by eexists.
  - by eexists.
  - by eexists.
  - eexists. by apply take_out_snoc.
  - simpl in He. apply Nat.eqb_neq in He.
    destruct (take_out id0 (inflight w)) as [[[r k] rest0]|] eqn:Ht0;
      [|discriminate].
    rewrite (inflight_resume _ _ _ _ Hs). simpl.
    apply (take_out_other id id0 _ _ _ _ _ (not_eq_sym He) Ht Ht0).
  - destruct (take_out id0 (timers w)) as [[d rest0]|]; [|discriminate].
    injection Hs as <-. simpl.
    eexists. by do 2 (apply take_out_snoc).
Qed.

Lemma inflight_run es : forall w w' id x rest,
  run w es = Some w' ->
  unsettled id es = true ->
  take_out id (inflight w) = Some (x, rest) ->
  exists rest', take_out id (inflight w') = Some (x, rest').
Proof.
  induction es as [|e es IH]; intros w w' id x rest; simpl.
  - intros [= <-] _ Ht. by eexists.
  - destruct (step w e) as [w1|] eqn:Hs; [|discriminate].
    intros Hr [He Hes]%andb_true_iff Ht.
    apply negb_true_iff in He.
    destruct (inflight_step _ _ _ _ _ _ Hs He Ht) as [rest1 Ht1].
    apply (IH _ _ _ _ _ Hr Hes Ht1).
Qed.

(** [handleFileSelect] highlights the node at once and puts one request in
    flight, for the path without the corpus root. *)
Lemma handleFileSelect_sends node w :
  wf w ->
  take_out (fresh w) (inflight (handleFileSelect node w)) =
  Some ((GetDocumentByPath (JS.replace corpusRoot "" (TreeNode.path node)),
         K_handleFileSelect), inflight w).
Proof. intros [Hi _]. simpl. by apply take_out_new. Qed.

End InFlight.

(** ** Selecting a file *)

(** C9: [handleFileSelect] sets the selected path at once and asks for the
    document under the node's path without the corpus root; whenever the
    answer is that there is no such document, nothing in the component state
    is updated: [previewDocument] keeps the value it had (unset if it was
    unset) and the selected path stays the clicked node's. *)
Theorem handleFileSelect_not_found (node : TreeNode.t) (w : World) :
  wf w ->
  selectedFilePath (app (handleFileSelect node w)) = TreeNode.path node
  /\ previewDocument (app (handleFileSelect node w)) = previewDocument (app w)
  /\ take_out (fresh w) (inflight (handleFileSelect node w)) =
       Some ((GetDocumentByPath (JS.replace corpusRoot "" (TreeNode.path node)),
              K_handleFileSelect), inflight w)
  /\ (forall rel, TreeNode.path node = corpusRoot ++ rel ->
       JS.replace corpusRoot "" (TreeNode.path node) = rel)
  /\ (forall es w2 o,
       run (handleFileSelect node w) es = Some w2 ->
       unsettled (fresh w) es = true ->
       notFound o ->
       exists w3, step w2 (Settle (fresh w) o) = Some w3 /\ app w3 = app w2).
Proof.
  intros Hw. split; [reflexivity|]. split; [reflexivity|].
  split; [by apply handleFileSelect_sends|]. split.
  - intros rel ->. apply replace_prefix.
  - intros es w2 o Hr Hes Ho.
    destruct (inflight_run _ _ _ _ _ _ Hr Hes (handleFileSelect_sends node w Hw))
      as [rest Ht].
    simpl. rewrite Ht.
    destruct Ho as [-> | ->]; simpl; by eexists.
Qed.

Lemma handleFileSelect_not_found_witness :
  selectedFilePath (app (handleFileSelect Sample.nodeA initialWorld)) =
    "/var/www/html/MPK/doc/a.txt"
  /\ JS.replace corpusRoot "" (TreeNode.path Sample.nodeA) = "a.txt"
  /\ exists w3,
       step (handleFileSelect Sample.nodeA initialWorld) (Settle 0 Rejected) = Some w3
       /\ app w3 = app (handleFileSelect Sample.nodeA initialWorld).
Proof.
  assert (Hwf : wf initialWorld) by (split; constructor).
  destruct (handleFileSelect_not_found Sample.nodeA initialWorld Hwf)
    as (Hsel & _ & _ & Hrel & Hnf).
  split; [exact Hsel|]. split.
  - apply Hrel. reflexivity.
  - apply (Hnf [] _ Rejected); [reflexivity | reflexivity | by left].
Defined.

(** A document that arrives for a selection is shown, whatever happened
    since the selection was made. *)
Lemma handleFileSelect_found (node : TreeNode.t) (w : World) es w2 doc :
  wf w ->
  run (handleFileSelect node w) es = Some w2 ->
  unsettled (fresh w) es = true ->
  exists w3,
    step w2 (Settle (fresh w) (Fulfilled (DocumentData (Some doc)))) = Some w3
    /\ previewDocument (app w3) = Some doc
    /\ selectedFilePath (app w3) = selectedFilePath (app w2).
Proof.
  intros Hw Hr Hes.
  destruct (inflight_run _ _ _ _ _ _ Hr Hes (handleFileSelect_sends node w Hw))
    as [rest Ht].
  simpl. rewrite Ht. simpl. by eexists.
Qed.

(** C1, as the code has it: a document that arrives for a selection is
    applied whenever it arrives, whether or not a newer selection has been
    made meanwhile.  So when file A and then file B are selected and the
    answer for A arrives after the answer for B, the preview ends up showing
    the document received for A, while the selected path is that of B. *)
Theorem selectFile_last_response_wins
    (nodeA nodeB : TreeNode.t) (docA docB : Document.t) (w : World) :
  wf w ->
  TreeNode.type nodeA = TreeNode.file ->
  TreeNode.type nodeB = TreeNode.file ->
  (exists w',
     run w [ClickNode nodeA; ClickNode nodeB;
            Settle (S (fresh w)) (Fulfilled (DocumentData (Some docB)));
            Settle (fresh w) (Fulfilled (DocumentData (Some docA)))] = Some w'
     /\ previewDocument (app w') = Some docA
     /\ selectedFilePath (app w') = TreeNode.path nodeB)
  /\ (forall es w2 doc,
       run (handleFileSelect nodeA w) es = Some w2 ->
       unsettled (fresh w) es = true ->
       exists w3,
         step w2 (Settle (fresh w) (Fulfilled (DocumentData (Some doc)))) = Some w3
         /\ previewDocument (app w3) = Some doc
         /\ selectedFilePath (app w3) = selectedFilePath (app w2)).
Proof.
  intros Hw HA HB. split.
  - destruct Hw as [Hi _].
    cbn [run step]. unfold handleClick. rewrite HA, HB.
    cbn [handleFileSelect send update inflight fresh app].
    rewrite take_out_new by (by apply ids_below_snoc).
    cbn [resume setInflight update inflight app].
    rewrite take_out_new by exact Hi.
    cbn [resume setInflight update inflight app].
    by eexists.
  - intros es w2 doc. by apply handleFileSelect_found.
Qed.

Lemma selectFile_last_response_wins_witness :
  (exists w',
     run initialWorld
       [ClickNode Sample.nodeA; ClickNode Sample.nodeB;
        Settle 1 (Fulfilled (DocumentData (Some Sample.docB)));
        Settle 0 (Fulfilled (DocumentData (Some Sample.docA)))] = Some w'
     /\ previewDocument (app w') = Some Sample.docA
     /\ selectedFilePath (app w') = TreeNode.path Sample.nodeB)
  /\ (exists w3,
       step (handleFileSelect Sample.nodeB (handleFileSelect Sample.nodeA initialWorld))
         (Settle 0 (Fulfilled (DocumentData (Some Sample.docA)))) = Some w3
       /\ previewDocument (app w3) = Some Sample.docA
       /\ selectedFilePath (app w3) = TreeNode.path Sample.nodeB).
Proof.
  assert (Hwf : wf initialWorld) by (split; constructor).
  destruct (selectFile_last_response_wins Sample.nodeA Sample.nodeB
              Sample.docA Sample.docB initialWorld Hwf eq_refl eq_refl)
    as [Hrace Hlate].
  split; [exact Hrace|].
  apply (Hlate [ClickNode Sample.nodeB]); reflexivity.
Defined.

(** C1, as stated, fails: both files are on screen, A is clicked, then B;
    the document of B arrives, then the document of A.  The last selection
    is B, and the preview shows A. *)
Lemma selectFile_race_counterexample :
  exists w0 w,
    run initialWorld Scenario.opened = Some w0
    /\ render (app w0) =
         AppView [Sample.root; Sample.nodeA; Sample.nodeB] true Welcome
    /\ run w0 Scenario.race = Some w
    /\ selectedFilePath (app w) = TreeNode.path Sample.nodeB
    /\ previewDocument (app w) = Some Sample.docA
    /\ previewDocument (app w) <> Some Sample.docB.
Proof.
  eexists. eexists. split; [vm_compute; reflexivity|].
  split; [vm_compute; reflexivity|].
  split; [vm_compute; reflexivity|].
  split; [reflexivity|]. split; [reflexivity|]. discriminate.
Qed.

(** ** Failed requests *)

(** The component state after the request awaited by [k] has failed. *)
Lemma resume_rejected k w :
  exists m,
    resume k Rejected w =
    Some (update (log w m)
            (fun st =>
               match k with
               | K_loadFileTree => setIsLoading st false
               | K_handleSearch => setIsSearching (setSearchResults st []) false
               | _ => st
               end)).
Proof. destruct k; simpl; by eexists. Qed.

(** C6, as the code has it: whatever request fails, the handler that awaited
    it runs to its end and logs the failure.  The tree, the statistics and
    the preview keep their values (a failed tree load only clears
    [isLoading]); a failed search does change its model: the result list is
    emptied and [isSearching] is reset. *)
Theorem request_failure (w : World) (id : nat) (r : Request) (k : Continuation)
    (rest : list (nat * (Request * Continuation))) :
  take_out id (inflight w) = Some ((r, k), rest) ->
  exists w' m,
    step w (Settle id Rejected) = Some w'
    /\ console w' = (console w ++ [console_error m])%list
    /\ inflight w' = rest
    /\ timers w' = timers w
    /\ app w' = match k with
                | K_loadFileTree => setIsLoading (app w) false
                | K_handleSearch =>
                    setIsSearching (setSearchResults (app w) []) false
                | _ => app w
                end
    /\ fileTree (app w') = fileTree (app w)
    /\ stats (app w') = stats (app w)
    /\ previewDocument (app w') = previewDocument (app w)
    /\ (k <> K_handleSearch -> searchResults (app w') = searchResults (app w))
    /\ (k = K_handleSearch ->
        searchResults (app w') = [] /\ isSearching (app w') = false).
Proof.
  intros Ht. simpl. rewrite Ht.
  destruct (resume_rejected k (setInflight w rest)) as [m ->].
  exists (update (log (setInflight w rest) m)
            (fun st =>
               match k with
               | K_loadFileTree => setIsLoading st false
               | K_handleSearch => setIsSearching (setSearchResults st []) false
               | _ => st
               end)), m.
  split; [reflexivity|]. split; [reflexivity|]. split; [reflexivity|].
  split; [reflexivity|].
  destruct k; simpl; repeat (split; [reflexivity|]);
    (split; [done | done]).
Qed.

Lemma request_failure_witness :
  exists w' m,
    step (loadFileTree initialWorld) (Settle 0 Rejected) = Some w'
    /\ console w' = [console_error m]
    /\ fileTree (app w') = None
    /\ searchResults (app w') = [].
Proof.
  destruct (request_failure (loadFileTree initialWorld) 0 GetFileTree
              K_loadFileTree [] eq_refl)
    as (w' & m & Hs & Hc & _ & _ & _ & Hf & _ & _ & Hkeep & _).
  exists w', m. split; [exact Hs|]. split; [exact Hc|]. split; [exact Hf|].
  apply Hkeep. discriminate.
Defined.

(** C6, as stated, fails: a search found a document; the same query is
    submitted again and this time the request fails.  The result list,
    which held the document, is empty afterwards. *)
Lemma search_failure_counterexample :
  exists w1 w2,
    run initialWorld Scenario.searchedTwice = Some w1
    /\ searchResults (app w1) = [Sample.resultA]
    /\ step w1 (Settle 4 Rejected) = Some w2
    /\ searchResults (app w2) = []
    /\ searchResults (app w2) <> searchResults (app w1).
Proof.
  eexists. eexists. split; [vm_compute; reflexivity|].
  split; [reflexivity|]. split; [vm_compute; reflexivity|].
  split; [reflexivity|]. discriminate.
Qed.

(** ** Rescan *)

Section Timers.

Lemma timers_resume k o w w' :
  resume k o w = Some w' ->
  timers w' = timers w \/ exists d, timers w' = (timers w ++ [(fresh w, d)])%list.
Proof.
  intros Hr.
  destruct k, o as [|[ | | | | [|] ]]; simpl in Hr; try discriminate;
    injection Hr as <-; simpl; eauto.
Qed.

(** No event cancels a timer: a pending timer stays pending until the
    event that fires it. *)
Lemma timers_step w e w' t d rest :
  step w e = Some w' ->
  fires t e = false ->
  take_out t (timers w) = Some (d, rest) ->
  exists rest', take_out t (timers w') = Some (d, rest').
Proof.
  intros Hs He Ht.
  destruct e; simpl in Hs; try injection Hs as <-; simpl;
    try (by eexists).
  - unfold handleSearch. destruct (negb _); by eexists.
  - unfold handleClick. destruct (TreeNode.type node); by eexists.
  - destruct (take_out id (inflight w)) as [[[r k] rest0]|]; [|discriminate].
    destruct (timers_resume _ _ _ _ Hs) as [-> | [d' ->]]; simpl.
    + by eexists.
    + eexists. by apply take_out_snoc.
  - simpl in He. apply Nat.eqb_neq in He.
    destruct (take_out id (timers w)) as [[d0 rest0]|] eqn:Ht0; [|discriminate].
    injection Hs as <-. simpl.
    apply (take_out_other t id _ _ _ _ _ (not_eq_sym He) Ht Ht0).
Qed.

End Timers.

(** C8, as the code has it: [triggerRescan] sends the scan request and waits
    for it.  Once the request has succeeded, and only then, a timer of 2000
    milliseconds is set, and when it expires the tree and the statistics are
    requested again; if the request fails, the failure is logged and no
    reload is scheduled.  A second rescan while the first timer is pending
    sets a second timer next to it, both reloads take place, and no event
    removes a pending timer except its own expiry. *)
Theorem triggerRescan_reload (w : World) :
  wf w ->
  (inflight (triggerRescan w) =
     (inflight w ++ [(fresh w, (PostScan, K_triggerRescan))])%list
   /\ timers (triggerRescan w) = timers w
   /\ app (triggerRescan w) = app w)
  /\ (exists w1 w2,
        run w [ClickRescan; Settle (fresh w) (Fulfilled ScanData)] = Some w1
        /\ timers w1 = (timers w ++ [(S (fresh w), 2000)])%list
        /\ inflight w1 = inflight w
        /\ step w1 (TimerFires (S (fresh w))) = Some w2
        /\ timers w2 = timers w
        /\ inflight w2 =
             (inflight w ++ [(S (S (fresh w)), (GetFileTree, K_loadFileTree));
                             (S (S (S (fresh w))), (GetStats, K_loadStats))])%list
        /\ app w2 = app w)
  /\ (exists w1,
        run w [ClickRescan; Settle (fresh w) Rejected] = Some w1
        /\ timers w1 = timers w
        /\ inflight w1 = inflight w
        /\ console w1 =
             (console w ++ [console_error (Some "Error triggering rescan:")])%list)
  /\ (exists w1 w2,
        run w [ClickRescan; Settle (fresh w) (Fulfilled ScanData);
               ClickRescan; Settle (S (S (fresh w))) (Fulfilled ScanData)] = Some w1
        /\ timers w1 =
             (timers w ++ [(S (fresh w), 2000); (S (S (S (fresh w))), 2000)])%list
        /\ run w1 [TimerFires (S (fresh w)); TimerFires (S (S (S (fresh w))))] = Some w2
        /\ timers w2 = timers w
        /\ map (fun e => fst (snd e)) (inflight w2) =
             (map (fun e => fst (snd e)) (inflight w) ++
              [GetFileTree; GetStats; GetFileTree; GetStats])%list)
  /\ (forall e w' t d rest,
        step w e = Some w' ->
        fires t e = false ->
        take_out t (timers w) = Some (d, rest) ->
        exists rest', take_out t (timers w') = Some (d, rest')).
Proof.
  intros [Hi Ht].
  assert (Ht1 : ids_below (S (fresh w)) (timers w))
    by (by apply (ids_below_mono (fresh w)); [lia|]).
  assert (Hi2 : ids_below (S (S (fresh w))) (inflight w))
    by (by apply (ids_below_mono (fresh w)); [lia|]).
  split; [by repeat split|]. split; [|split; [|split]].
  - eexists. eexists. split.
    { cbn [run step triggerRescan send inflight].
      rewrite take_out_new by exact Hi. reflexivity. }
    cbn [resume setInflight setTimeout timers inflight fresh].
    split; [reflexivity|]. split; [reflexivity|]. split.
    { cbn [step setTimeout timers]. rewrite take_out_new by exact Ht1.
      reflexivity. }
    split; [reflexivity|]. split; [|reflexivity].
    cbn. by rewrite <- app_assoc.
  - eexists. split.
    { cbn [run step triggerRescan send inflight].
      rewrite take_out_new by exact Hi. reflexivity. }
    by repeat split.
  - eexists. eexists. split.
    { cbn [run step triggerRescan send inflight].
      rewrite take_out_new by exact Hi.
      cbn [resume setInflight setTimeout inflight fresh].
      rewrite take_out_new by exact Hi2. reflexivity. }
    split; [cbn; by rewrite <- app_assoc|]. split.
    { cbn [run step timers fresh inflight triggerRescan send setTimeout
             setInflight].
      rewrite <- app_assoc. cbn [Datatypes.app].
      rewrite (take_out_app (S (fresh w))) by exact Ht1.
      cbn [reload loadStats loadFileTree send setTimers timers].
      rewrite take_out_new
        by (apply (ids_below_mono (fresh w)); [lia | exact Ht]).
      reflexivity. }
    split; [reflexivity|].
    cbn. rewrite !map_app. cbn. by rewrite <- !app_assoc.
  - intros e w' t d rest. apply timers_step.
Qed.

Lemma triggerRescan_reload_witness :
  let w := setTimeout initialWorld 2000 in
  (exists w1,
     run w [ClickRescan; Settle 1 (Fulfilled ScanData);
            ClickRescan; Settle 3 (Fulfilled ScanData)] = Some w1
     /\ timers w1 = [(0, 2000); (2, 2000); (4, 2000)])
  /\ (exists rest', take_out 0 (timers (triggerRescan w)) = Some (2000, rest')).
Proof.
  intros w.
  assert (Hwf : wf w) by (split; repeat constructor).
  destruct (triggerRescan_reload w Hwf)
    as (_ & _ & _ & (w1 & w2 & Hr & Ht & _) & Hkeep).
  split.
  - exists w1. split; [exact Hr | exact Ht].
  - apply (Hkeep ClickRescan (triggerRescan w) 0 2000 []); reflexivity.
Defined.

(** C8, as stated, fails: the application is mounted, the rescan button is
    pressed and the scan request fails.  The failure is logged; no timer is
    pending and nothing is in flight, so no reload follows. *)
Lemma triggerRescan_failure_counterexample :
  exists w,
    run initialWorld (Sample.mounted ++ [ClickRescan; Settle 3 Rejected]) = Some w
    /\ timers w = []
    /\ inflight w = []
    /\ console w = [console_error (Some "Error triggering rescan:")].
Proof.
  eexists. split; [vm_compute; reflexivity|]. by repeat split.
Qed.

(** ** The expansion loop *)

Section ExpansionLoop.

Abbreviation slash_join := (fun cur part : string => cur ++ "/" ++ part).

Lemma append_truthy (a b : string) :
  JS.truthy a = true -> JS.truthy (a ++ b) = true.
Proof. by destruct a. Qed.

Lemma append_assoc (a b c : string) : (a ++ b) ++ c = a ++ b ++ c.
Proof.
  induction a as [|x a IH]; [reflexivity|].
  change (String x ((a ++ b) ++ c) = String x (a ++ b ++ c)). by f_equal.
Qed.

Lemma foldl_slash_join_append a cur ps :
  foldl slash_join (a ++ cur) ps = a ++ foldl slash_join cur ps.
Proof.
  revert cur. induction ps as [|p ps IH]; intros cur; simpl; [reflexivity|].
  by rewrite <- IH, append_assoc.
Qed.

(** Once the running path is non-empty, the loop separates with a slash
    at every step. *)
Lemma foldl_expandStep q ps : forall cur (s : gset string),
  JS.truthy cur = true ->
  q ∈ snd (foldl expandStep (cur, s) ps) <->
  q ∈ s \/ exists k, (0 < k <= length ps)%nat /\
                    q = foldl slash_join cur (take k ps).
Proof.
  induction ps as [|p ps IH]; intros cur s Hcur; simpl.
  - split; [by left|]. intros [Hq | (k & Hk & _)]; [exact Hq | lia].
  - unfold expandStep at 2. simpl. rewrite Hcur.
    rewrite IH by (by apply append_truthy).
    rewrite elem_of_union, elem_of_singleton. split.
    + intros [[-> | Hq] | (k & Hk & ->)].
      * right. exists 1. split; [lia | reflexivity].
      * by left.
      * right. exists (S k). split; [lia | reflexivity].
    + intros [Hq | (k & Hk & ->)]; [by left; right|].
      destruct k as [|k]; [lia|]. simpl.
      destruct k as [|k]; [by left; left|].
      right. exists (S k). split; [lia | reflexivity].
Qed.

Lemma split_nonempty sep s : JS.split sep s <> [].
Proof. destruct s as [|c s]; simpl; [done|]. by destruct (Ascii.eqb c sep), (JS.split sep s). Qed.

Lemma join_cons_char c p ps k :
  join (take (S k) (String c p :: ps)) = String c (join (take (S k) (p :: ps))).
Proof. simpl. apply (foldl_slash_join_append (String c "")). Qed.

Lemma join_cons_empty p ps k :
  join (take (S (S k)) ("" :: p :: ps)) = "/" ++ join (take (S k) (p :: ps)).
Proof. simpl. apply (foldl_slash_join_append "/"). Qed.

(** The joins of the leading parts of a path are its proper ancestors. *)
Lemma join_take_split path : forall q,
  (exists k, (0 < k < length (JS.split "/" path))%nat /\
             q = join (take k (JS.split "/" path)))
  <-> properAncestor q path.
Proof.
  unfold properAncestor.
  induction path as [|c path IH]; intros q.
  - simpl. split.
    + intros (k & Hk & _). lia.
    + intros [rest Hr]. by destruct q.
  - cbn [JS.split].
    pose proof (split_nonempty "/" path) as Hne.
    destruct (Ascii.eqb_spec c "/") as [-> | Hc].
    + destruct (JS.split "/" path) as [|p ps] eqn:Hsp; [done|]. split.
      * intros (k & Hk & ->). destruct k as [|[|k]]; [lia | |].
        -- by exists path.
        -- rewrite join_cons_empty.
           destruct (proj1 (IH (join (take (S k) (p :: ps))))) as [rest ->].
           { exists (S k). simpl in *. split; [lia | reflexivity]. }
           exists rest. reflexivity.
      * intros [rest Hr]. destruct q as [|x q].
        -- exists 1. simpl. split; [lia | reflexivity].
        -- simpl in Hr. injection Hr as <- Hr.
           destruct (proj2 (IH q)) as (k & Hk & ->); [by exists rest|].
           destruct k as [|k]; [lia|].
           exists (S (S k)). simpl in *. split; [lia|].
           symmetry. apply (foldl_slash_join_append "/").
    + destruct (JS.split "/" path) as [|p ps] eqn:Hsp; [done|]. split.
      * intros (k & Hk & ->). destruct k as [|k]; [lia|].
        rewrite join_cons_char.
        destruct (proj1 (IH (join (take (S k) (p :: ps))))) as [rest ->].
        { exists (S k). simpl in *. split; [lia | reflexivity]. }
        exists rest. reflexivity.
      * intros [rest Hr]. destruct q as [|x q].
        -- simpl in Hr. by injection Hr as -> _.
        -- simpl in Hr. injection Hr as <- Hr.
           destruct (proj2 (IH q)) as (k & Hk & ->); [by exists rest|].
           destruct k as [|k]; [lia|].
           exists (S k). simpl in *. split; [lia|].
           symmetry. apply (foldl_slash_join_append (String c "")).
Qed.

(** For a path that does not begin with a slash, the loop adds exactly the
    proper ancestors of the path. *)
Lemma expandAncestorsOf_relative path (s : gset string) q :
  (forall rest, path <> "/" ++ rest) ->
  q ∈ expandAncestorsOf path s <-> q ∈ s \/ properAncestor q path.
Proof.
  intros Hrel. rewrite <- join_take_split. unfold expandAncestorsOf.
  destruct path as [|c path].
  { simpl. split; [by left|]. intros [Hq | (k & Hk & _)]; [exact Hq | lia]. }
  cbn [JS.split].
  destruct (Ascii.eqb_spec c "/") as [-> | Hc]; [by destruct (Hrel path)|].
  pose proof (split_nonempty "/" path) as Hne.
  destruct (JS.split "/" path) as [|p ps]; [done|].
  cbn [length Nat.sub]. rewrite Nat.sub_0_r. clear Hne.
  destruct ps as [|p' ps].
  { simpl. split; [by left|]. intros [Hq | (k & Hk & _)]; [exact Hq | lia]. }
  set (tl := p' :: ps). assert (Htl : length tl = S (length ps)) by done.
  rewrite Htl.
  change (take (S (length ps)) (String c p :: tl))
    with (String c p :: take (length ps) tl).
  cbn [foldl]. unfold expandStep at 2. cbn [fst snd JS.truthy].
  change ("" ++ "" ++ String c p) with (String c p).
  rewrite foldl_expandStep by reflexivity.
  rewrite elem_of_union, elem_of_singleton, length_take, Htl. split.
  - intros [[-> | Hq] | (k & Hk & ->)].
    + right. exists 1. split; [simpl; lia | reflexivity].
    + by left.
    + right. exists (S k). split; [simpl; lia|].
      simpl. by rewrite take_take, Nat.min_l by lia.
  - intros [Hq | (k & Hk & ->)]; [by left; right|].
    destruct k as [|[|k]]; [lia | by left; left |].
    right. exists (S k). simpl in Hk. split; [lia|].
    simpl. by rewrite take_take, Nat.min_l by lia.
Qed.

End ExpansionLoop.

(** ** Activating a search result *)

(** What [handleResultClick] does in one step: the path of the result's
    document is selected, the expansion loop is run on it, the document the
    result carries is previewed, and no request is sent. *)
Lemma handleResultClick_sync (result : SearchResult.t) (w : World) :
  step w (ClickResult result) = Some (handleResultClick result w)
  /\ selectedFilePath (app (handleResultClick result w)) =
       Document.path (SearchResult.document result)
  /\ expandedPaths (app (handleResultClick result w)) =
       expandAncestorsOf (Document.path (SearchResult.document result))
         (expandedPaths (app w))
  /\ previewDocument (app (handleResultClick result w)) =
       Some (SearchResult.document result)
  /\ inflight (handleResultClick result w) = inflight w
  /\ timers (handleResultClick result w) = timers w.
Proof. by repeat split. Qed.

(** C3, on the path of the specification: for [/a/b/c.txt] the loop starts
    from the empty first part, so the paths it adds are the empty string,
    [a] and [a/b]; the ancestors [/a] and [/a/b] are not added. *)
Theorem expandAncestorsOf_absolute_path :
  expandAncestorsOf "/a/b/c.txt" ∅ = {[ ""; "a"; "a/b" ]}
  /\ isExpanded "/a" (expandAncestorsOf "/a/b/c.txt" ∅) = false
  /\ isExpanded "/a/b" (expandAncestorsOf "/a/b/c.txt" ∅) = false
  /\ isExpanded "" (expandAncestorsOf "/a/b/c.txt" ∅) = true
  /\ isExpanded "a" (expandAncestorsOf "/a/b/c.txt" ∅) = true
  /\ isExpanded "/a/b/c.txt" (expandAncestorsOf "/a/b/c.txt" ∅) = false.
Proof. repeat split; vm_compute; reflexivity. Qed.

(** C4, on a result for [/a/b/c.txt]: the path is selected, the document is
    previewed and nothing is sent, all in the one step; but the folders [/a]
    and [/a/b] are not expanded, and the tree still shows the root folder
    only. *)
Theorem handleResultClick_absolute_path :
  exists w0 w,
    run initialWorld Scenario.found = Some w0
    /\ renderMainContent (app w0) = Results [Sample.resultC] "gamma"
    /\ step w0 (ClickResult Sample.resultC) = Some w
    /\ selectedFilePath (app w) = "/a/b/c.txt"
    /\ previewDocument (app w) = Some Sample.docC
    /\ inflight w = inflight w0
    /\ isExpanded "/a" (expandedPaths (app w)) = false
    /\ isExpanded "/a/b" (expandedPaths (app w)) = false
    /\ render (app w) = AppView [Sample.folderA] true (Preview Sample.docC).
Proof.
  eexists. eexists. split; [vm_compute; reflexivity|].
  split; [reflexivity|]. split; [vm_compute; reflexivity|].
  repeat split; vm_compute; reflexivity.
Qed.


(** * Further properties of the component *)

(** ** What an event can change *)

Section Frames.

(** The code after an [await] never touches the search box, the selection,
    the expansion set or the modal document. *)
Lemma resume_frame k o w w' :
  resume k o w = Some w' ->
  searchQuery (app w') = searchQuery (app w)
  /\ selectedFilePath (app w') = selectedFilePath (app w)
  /\ expandedPaths (app w') = expandedPaths (app w)
  /\ selectedDocument (app w') = selectedDocument (app w).
Proof.
  intros Hr.
  destruct k, o as [|[ | | | | [|] ]]; simpl in Hr; try discriminate;
    by injection Hr as <-.
Qed.

Lemma step_selectedDocument w e w' :
  step w e = Some w' -> selectedDocument (app w') = selectedDocument (app w).
Proof.
  intros Hs. destruct e; simpl in Hs; try (by injection Hs as <-).
  - injection Hs as <-. unfold handleSearch. by destruct (negb _).
  - injection Hs as <-. unfold handleClick. by destruct (TreeNode.type node).
  - destruct (take_out id (inflight w)) as [[[r k] rest]|]; [|discriminate].
    by destruct (resume_frame _ _ _ _ Hs) as (_ & _ & _ & ->).
  - destruct (take_out id (timers w)) as [[d rest]|]; [|discriminate].
    by injection Hs as <-.
Qed.

Lemma resume_isLoading k o w w' :
  resume k o w = Some w' ->
  isLoading (app w') = false \/ isLoading (app w') = isLoading (app w).
Proof.
  intros Hr.
  destruct k, o as [|[ | | | | [|] ]]; simpl in Hr; try discriminate;
    injection Hr as <-; simpl; auto.
Qed.

Lemma step_isLoading w e w' :
  step w e = Some w' ->
  isLoading (app w) = false -> isLoading (app w') = false.
Proof.
  intros Hs Hl. destruct e; simpl in Hs; try (by injection Hs as <-).
  - injection Hs as <-. unfold handleSearch. by destruct (negb _).
  - injection Hs as <-. unfold handleClick. by destruct (TreeNode.type node).
  - destruct (take_out id (inflight w)) as [[[r k] rest]|]; [|discriminate].
    destruct (resume_isLoading _ _ _ _ Hs) as [H | H]; [exact H|].
    by rewrite H.
  - destruct (take_out id (timers w)) as [[d rest]|]; [|discriminate].
    by injection Hs as <-.
Qed.

End Frames.

(** X1: [selectedDocument] is never set: whatever sequence of events the
    application has gone through, it is still unset, so the modal preview is
    never on screen. *)
Theorem modal_never_shown (es : list Event) (w : World) :
  run initialWorld es = Some w -> renderModal (app w) = None.
Proof.
  unfold renderModal.
  assert (H : forall w0 w1, run w0 es = Some w1 ->
            selectedDocument (app w1) = selectedDocument (app w0)).
  { induction es as [|e es IH]; intros w0 w1; simpl.
    - by intros [= <-].
    - destruct (step w0 e) as [w2|] eqn:Hs; [|discriminate].
      intros Hr. rewrite (IH _ _ Hr). by apply (step_selectedDocument _ e). }
  intros Hr. by rewrite (H _ _ Hr).
Qed.

Lemma modal_never_shown_witness :
  exists w, run initialWorld (Sample.mounted ++ [ClickResult Sample.resultA]) = Some w
            /\ renderModal (app w) = None.
Proof.
  eexists. split; [vm_compute; reflexivity|].
  apply (modal_never_shown (Sample.mounted ++ [ClickResult Sample.resultA])).
  vm_compute; reflexivity.
Defined.

(** X2: the answer to a tree request, good or bad, ends the initial loading
    screen, and nothing brings it back: once [isLoading] is false it stays
    false through every sequence of events, reloads after a rescan
    included. *)
Theorem isLoading_cleared_for_good (w : World) :
  (forall id r rest o w',
     take_out id (inflight w) = Some ((r, K_loadFileTree), rest) ->
     step w (Settle id o) = Some w' ->
     isLoading (app w') = false /\ render (app w') <> AppLoading)
  /\ (forall es w',
       run w es = Some w' ->
       isLoading (app w) = false -> isLoading (app w') = false).
Proof.
  split.
  - intros id r rest o w' Ht Hs. simpl in Hs. rewrite Ht in Hs.
    assert (Hl : isLoading (app w') = false).
    { destruct o as [|[ | | | | ]]; simpl in Hs; try discriminate;
        by injection Hs as <-. }
    split; [exact Hl|]. unfold render. by rewrite Hl.
  - intros es. revert w. induction es as [|e es IH]; intros w w'; simpl.
    + by intros [= <-].
    + destruct (step w e) as [w1|] eqn:Hs; [|discriminate].
      intros Hr Hl. apply (IH _ _ Hr). exact (step_isLoading w e w1 Hs Hl).
Qed.

Lemma isLoading_cleared_for_good_witness :
  exists w1 w2,
    step (mount initialWorld) (Settle 0 Rejected) = Some w1
    /\ isLoading (app w1) = false
    /\ run w1 [ClickRescan; Settle 3 (Fulfilled ScanData); TimerFires 4] = Some w2
    /\ isLoading (app w2) = false.
Proof.
  destruct (isLoading_cleared_for_good (mount initialWorld)) as [Hsettle _].
  eexists. eexists. split; [vm_compute; reflexivity|].
  match goal with |- isLoading (app ?w1) = _ /\ _ =>
    destruct (isLoading_cleared_for_good w1) as [_ Hkeep];
    assert (Hl : isLoading (app w1) = false)
      by (apply (Hsettle 0 GetFileTree
                   [(1, (GetStats, K_loadStats)); (2, (PostScan, K_initialScan))]
                   Rejected w1); vm_compute; reflexivity)
  end.
  split; [exact Hl|]. split; [vm_compute; reflexivity|].
  apply (Hkeep [ClickRescan; Settle 3 (Fulfilled ScanData); TimerFires 4]);
    [vm_compute; reflexivity | exact Hl].
Defined.

(** X3: the expansion set and the selected path are changed by clicks on
    tree nodes and on search results only; every other event (typing,
    searching, closing the preview, rescans, answers and reloads of the
    tree) keeps both.  A click on a folder keeps the selection, and a click
    on a file keeps the expansion set. *)
Theorem expansion_and_selection_persist (w : World) (e : Event) (w' : World) :
  step w e = Some w' ->
  ((forall node, e <> ClickNode node) ->
   (forall result, e <> ClickResult result) ->
   expandedPaths (app w') = expandedPaths (app w)
   /\ selectedFilePath (app w') = selectedFilePath (app w))
  /\ (forall node, e = ClickNode node ->
       TreeNode.type node = TreeNode.folder ->
       selectedFilePath (app w') = selectedFilePath (app w)
       /\ previewDocument (app w') = previewDocument (app w)
       /\ inflight w' = inflight w)
  /\ (forall node, e = ClickNode node ->
       TreeNode.type node = TreeNode.file ->
       expandedPaths (app w') = expandedPaths (app w)).
Proof.
  intros Hs. split; [|split].
  - intros Hn Hc. destruct e; simpl in Hs; try (by injection Hs as <-).
    + injection Hs as <-. unfold handleSearch. by destruct (negb _).
    + by destruct (Hn node).
    + by destruct (Hc result).
    + destruct (take_out id (inflight w)) as [[[r k] rest]|]; [|discriminate].
      by destruct (resume_frame _ _ _ _ Hs) as (_ & -> & -> & _).
    + destruct (take_out id (timers w)) as [[d rest]|]; [|discriminate].
      by injection Hs as <-.
  - intros node -> Hty. simpl in Hs. injection Hs as <-.
    unfold handleClick. by rewrite Hty.
  - intros node -> Hty. simpl in Hs. injection Hs as <-.
    unfold handleClick. by rewrite Hty.
Qed.

Lemma expansion_and_selection_persist_witness :
  let w := handleResultClick Sample.resultC initialWorld in
  (exists w', step w ClosePreview = Some w'
              /\ expandedPaths (app w') = expandedPaths (app w)
              /\ selectedFilePath (app w') = "/a/b/c.txt")
  /\ selectedFilePath (app (handleClick Sample.folderA w)) = "/a/b/c.txt"
  /\ expandedPaths (app (handleClick Sample.nodeA w)) = expandedPaths (app w).
Proof.
  intros w. split; [|split].
  - exists (closePreview w). split; [reflexivity|].
    destruct (expansion_and_selection_persist w ClosePreview (closePreview w)
                eq_refl) as (Hkeep & _).
    destruct Hkeep as [He Hsel]; [discriminate | discriminate |].
    split; [exact He | exact Hsel].
  - destruct (expansion_and_selection_persist w (ClickNode Sample.folderA)
                (handleClick Sample.folderA w) eq_refl) as (_ & Hfolder & _).
    by destruct (Hfolder Sample.folderA eq_refl eq_refl) as (-> & _).
  - destruct (expansion_and_selection_persist w (ClickNode Sample.nodeA)
                (handleClick Sample.nodeA w) eq_refl) as (_ & _ & Hfile).
    exact (Hfile Sample.nodeA eq_refl eq_refl).
Defined.

(** X4: the tree is replaced only by the data of a fulfilled tree request,
    and wholesale (an empty body clears it); no other event, and no failed
    request, changes it. *)
Theorem fileTree_replaced_by_loads_only (w : World) (e : Event) (w' : World) :
  step w e = Some w' ->
  fileTree (app w') <> fileTree (app w) ->
  exists id tree r rest,
    e = Settle id (Fulfilled (TreeData tree))
    /\ take_out id (inflight w) = Some ((r, K_loadFileTree), rest)
    /\ fileTree (app w') = tree.
Proof.
  intros Hs Hne.
  destruct e; simpl in Hs; try (injection Hs as <-; by destruct Hne).
  - injection Hs as <-. destruct Hne. unfold handleSearch. by destruct (negb _).
  - injection Hs as <-. destruct Hne. unfold handleClick.
    by destruct (TreeNode.type node).
  - destruct (take_out id (inflight w)) as [[[r k] rest]|] eqn:Ht; [|discriminate].
    destruct k, o as [|[ | | | | [|] ]]; simpl in Hs; try discriminate;
      injection Hs as <-; try (by destruct Hne).
    by exists id, tree, r, rest.
  - destruct (take_out id (timers w)) as [[d rest]|]; [|discriminate].
    injection Hs as <-. by destruct Hne.
Qed.

Lemma fileTree_replaced_by_loads_only_witness :
  exists id tree r rest,
    Settle 0 (Fulfilled (TreeData (Some Sample.root))) =
      Settle id (Fulfilled (TreeData tree))
    /\ take_out id (inflight (mount initialWorld)) = Some ((r, K_loadFileTree), rest)
    /\ Some Sample.root = tree.
Proof.
  apply (fileTree_replaced_by_loads_only (mount initialWorld)
           (Settle 0 (Fulfilled (TreeData (Some Sample.root))))
           (update (update (setInflight (mount initialWorld)
                              [(1, (GetStats, K_loadStats));
                               (2, (PostScan, K_initialScan))])
                      (fun st => setFileTree st (Some Sample.root)))
              (fun st => setIsLoading st false))).
  - reflexivity.
  - discriminate.
Defined.

(** ** Searching *)

(** X5: when a search request settles, [isSearching] is reset and the result
    list is replaced by the results received (by the empty list when the
    body has none or the request failed); the query in the search box, which
    may have been edited since, and the preview are not touched. *)
Theorem search_settles (w : World) (id : nat) (r : Request)
    (rest : list (nat * (Request * Continuation))) (o : Outcome) (w' : World) :
  take_out id (inflight w) = Some ((r, K_handleSearch), rest) ->
  step w (Settle id o) = Some w' ->
  isSearching (app w') = false
  /\ searchResults (app w') =
       match o with
       | Fulfilled (SearchData (Some results)) => results
       | _ => []
       end
  /\ inflight w' = rest
  /\ searchQuery (app w') = searchQuery (app w)
  /\ previewDocument (app w') = previewDocument (app w).
Proof.
  intros Ht Hs. simpl in Hs. rewrite Ht in Hs.
  destruct o as [|[ | | | [results|] | ]]; simpl in Hs; try discriminate;
    by injection Hs as <-.
Qed.

Lemma search_settles_witness :
  let w := handleSearch (handleSearch
             (update initialWorld (fun st => setSearchQuery st "alpha"))) in
  exists w',
    step w (Settle 0 (Fulfilled (SearchData (Some [Sample.resultA])))) = Some w'
    /\ isSearching (app w') = false
    /\ inflight w' = [(1, (PostSearch "alpha" 50, K_handleSearch))].
Proof.
  intros w. eexists. split; [reflexivity|].
  destruct (search_settles w 0 (PostSearch "alpha" 50)
              [(1, (PostSearch "alpha" 50, K_handleSearch))]
              (Fulfilled (SearchData (Some [Sample.resultA]))) _ eq_refl eq_refl)
    as (Hs & _ & Hi & _).
  split; [exact Hs | exact Hi].
Defined.

(** X7: a query with anything but white space in it is sent exactly as
    typed, untrimmed, with a limit of 50; [isSearching] is raised and the
    results of the previous search stay in place, so that the main panel
    shows the loading state unless a preview is open. *)
Theorem handleSearch_submits (w : World) :
  JS.all_whitespace (searchQuery (app w)) = false ->
  inflight (handleSearch w) =
    (inflight w ++
     [(fresh w, (PostSearch (searchQuery (app w)) 50, K_handleSearch))])%list
  /\ isSearching (app (handleSearch w)) = true
  /\ searchResults (app (handleSearch w)) = searchResults (app w)
  /\ searchQuery (app (handleSearch w)) = searchQuery (app w)
  /\ (previewDocument (app w) = None ->
      renderMainContent (app (handleSearch w)) = Loading).
Proof.
  intros Hq. rewrite (handleSearch_sends w Hq).
  repeat (split; [reflexivity|]).
  intros Hp. unfold renderMainContent. simpl. by rewrite Hp.
Qed.

Lemma handleSearch_submits_witness :
  let w := update initialWorld (fun st => setSearchQuery st " alpha ") in
  inflight (handleSearch w) = [(0, (PostSearch " alpha " 50, K_handleSearch))]
  /\ renderMainContent (app (handleSearch w)) = Loading.
Proof.
  intros w.
  destruct (handleSearch_submits w eq_refl) as (Hi & _ & _ & _ & Hl).
  split; [exact Hi | by apply Hl].
Defined.

(** ** The initial scan *)

(** X8: unlike a rescan, the scan posted when the application is mounted
    has no follow-up: whether it succeeds or fails, the component state
    stays as it is and no timer is set, so the tree requested at the same
    moment is not requested again once that scan has finished. *)
Theorem initial_scan_has_no_follow_up (w : World) (o : Outcome) :
  wf w ->
  o = Rejected \/ o = Fulfilled ScanData ->
  map (fun e => snd e) (inflight (mount w)) =
    (map (fun e => snd e) (inflight w) ++
     [(GetFileTree, K_loadFileTree); (GetStats, K_loadStats);
      (PostScan, K_initialScan)])%list
  /\ exists w',
       step (mount w) (Settle (S (S (fresh w))) o) = Some w'
       /\ app w' = app w
       /\ timers w' = timers w
       /\ map (fun e => snd e) (inflight w') =
            (map (fun e => snd e) (inflight w) ++
             [(GetFileTree, K_loadFileTree); (GetStats, K_loadStats)])%list.
Proof.
  intros [Hi _] Ho. split.
  { simpl. rewrite !map_app. simpl. by rewrite <- !app_assoc. }
  assert (Ht : take_out (S (S (fresh w))) (inflight (mount w)) =
               Some ((PostScan, K_initialScan),
                     ((inflight w ++ [(fresh w, (GetFileTree, K_loadFileTree))]) ++
                      [(S (fresh w), (GetStats, K_loadStats))])%list)).
  { simpl. apply take_out_new. by do 2 apply ids_below_snoc. }
  cbn [step]. rewrite Ht.
  destruct Ho as [-> | ->]; eexists; (split; [reflexivity|]);
    repeat (split; [reflexivity|]);
    simpl; rewrite !map_app; simpl; by rewrite <- !app_assoc.
Qed.

Lemma initial_scan_has_no_follow_up_witness :
  exists w',
    step (mount initialWorld) (Settle 2 (Fulfilled ScanData)) = Some w'
    /\ app w' = initialState
    /\ timers w' = [].
Proof.
  assert (Hwf : wf initialWorld) by (split; constructor).
  destruct (initial_scan_has_no_follow_up initialWorld (Fulfilled ScanData) Hwf
              (or_intror eq_refl))
    as (_ & w' & Hs & Ha & Ht & _).
  exists w'. split; [exact Hs|]. split; [exact Ha | exact Ht].
Defined.

(** ** More on the expansion set *)

Section ExpansionAlgebra.

(** The loop only adds to the set it starts from, and what it adds does not
    depend on that set. *)
Lemma foldl_expandStep_union ps : forall cur (s : gset string),
  fst (foldl expandStep (cur, s) ps) = fst (foldl expandStep (cur, ∅) ps)
  /\ snd (foldl expandStep (cur, s) ps) =
       snd (foldl expandStep (cur, ∅) ps) ∪ s.
Proof.
  induction ps as [|p ps IH]; intros cur s; simpl.
  - split; [reflexivity|]. by rewrite union_empty_l_L.
  - set (cur' := cur ++ (if JS.truthy cur then "/" else "") ++ p).
    change (expandStep (cur, s) p) with (cur', {[cur']} ∪ s).
    change (expandStep (cur, ∅) p) with (cur', {[cur']} ∪ (∅ : gset string)).
    destruct (IH cur' ({[cur']} ∪ s)) as [Hf Hs].
    destruct (IH cur' ({[cur']} ∪ ∅)) as [Hf0 Hs0].
    split; [congruence|].
    rewrite Hs, Hs0, union_empty_r_L. by rewrite (assoc_L (∪)).
Qed.

Lemma expandAncestorsOf_union path (s : gset string) :
  expandAncestorsOf path s = expandAncestorsOf path ∅ ∪ s.
Proof. unfold expandAncestorsOf. apply foldl_expandStep_union. Qed.

Lemma expandAncestorsOf_idemp path (s : gset string) :
  expandAncestorsOf path (expandAncestorsOf path s) = expandAncestorsOf path s.
Proof.
  rewrite (expandAncestorsOf_union _ (expandAncestorsOf _ _)).
  rewrite (expandAncestorsOf_union _ s).
  by rewrite (assoc_L (∪)), union_idemp_L.
Qed.

Lemma elem_of_isExpanded q (s : gset string) :
  q ∈ s <-> isExpanded q s = true.
Proof. unfold isExpanded. by rewrite bool_decide_eq_true. Qed.

Lemma toggle_toggle p (s : gset string) : toggle p (toggle p s) = s.
Proof.
  apply set_eq. intros q.
  rewrite (elem_of_isExpanded q s), (elem_of_isExpanded q (toggle _ _)).
  rewrite !isExpanded_toggle.
  destruct (decide (p = q)); [|reflexivity].
  by rewrite negb_involutive.
Qed.

Lemma toggle_comm p q (s : gset string) :
  toggle p (toggle q s) = toggle q (toggle p s).
Proof.
  apply set_eq. intros x.
  rewrite (elem_of_isExpanded x (toggle p _)), (elem_of_isExpanded x (toggle q _)).
  rewrite !isExpanded_toggle.
  by destruct (decide (p = x)), (decide (q = x)).
Qed.

End ExpansionAlgebra.

(** X9: activating a search result never collapses a folder: every path
    that was expanded stays expanded.  What a result adds does not depend
    on what was expanded before, so activating the same result again
    changes nothing, and two results can be activated in either order with
    the same expansion set at the end. *)
Theorem handleResultClick_only_expands
    (r1 r2 : SearchResult.t) (w : World) :
  expandedPaths (app w) ⊆ expandedPaths (app (handleResultClick r1 w))
  /\ handleResultClick r1 (handleResultClick r1 w) = handleResultClick r1 w
  /\ expandedPaths (app (handleResultClick r2 (handleResultClick r1 w))) =
       expandedPaths (app (handleResultClick r1 (handleResultClick r2 w))).
Proof.
  split; [|split].
  - simpl. rewrite expandAncestorsOf_union. apply union_subseteq_r.
  - unfold handleResultClick, update. cbn.
    by rewrite expandAncestorsOf_idemp.
  - simpl.
    rewrite (expandAncestorsOf_union _ (expandAncestorsOf _ _)).
    rewrite (expandAncestorsOf_union (Document.path (SearchResult.document r1))
               (expandedPaths (app w))).
    rewrite (expandAncestorsOf_union _ (expandAncestorsOf _ _)).
    rewrite (expandAncestorsOf_union (Document.path (SearchResult.document r2))
               (expandedPaths (app w))).
    rewrite !(assoc_L (∪)).
    by rewrite (comm_L (∪) (expandAncestorsOf (Document.path (SearchResult.document r2)) ∅)).
Qed.

(** X10: toggling a folder twice restores the expansion set exactly, and
    toggles of different folders can be made in either order. *)
Theorem handleToggleExpanded_involutive (p q : string) (w : World) :
  expandedPaths (app (handleToggleExpanded p (handleToggleExpanded p w))) =
    expandedPaths (app w)
  /\ expandedPaths (app (handleToggleExpanded p (handleToggleExpanded q w))) =
       expandedPaths (app (handleToggleExpanded q (handleToggleExpanded p w))).
Proof.
  split; simpl; [apply toggle_toggle | apply toggle_comm].
Qed.

(** X11: a leading slash is lost in the loop: on a path that begins with a
    slash it does what it does on the rest of the path, and adds the empty
    path besides. *)
Theorem expandAncestorsOf_leading_slash (path : string) (s : gset string) :
  expandAncestorsOf ("/" ++ path) s = expandAncestorsOf path ({[""]} ∪ s).
Proof.
  unfold expandAncestorsOf.
  change (JS.split "/" ("/" ++ path)) with ("" :: JS.split "/" path).
  pose proof (split_nonempty "/" path) as Hne.
  destruct (JS.split "/" path) as [|p ps]; [done|].
  cbn [length Nat.sub]. rewrite !Nat.sub_0_r.
  change (take (S (length ps)) ("" :: p :: ps))
    with ("" :: take (length ps) (p :: ps)).
  reflexivity.
Qed.

(** X12: for a path that does not begin with a slash, activating a result
    expands exactly the proper ancestors of the path (the prefixes that end
    where a slash begins) and nothing else; a path without a slash expands
    nothing. *)
Theorem expandAncestorsOf_relative_path (path : string) (s : gset string) :
  beginsWithSlash path = false ->
  (forall q, q ∈ expandAncestorsOf path s <-> q ∈ s \/ properAncestor q path)
  /\ (occurs "/" path = false -> expandAncestorsOf path s = s).
Proof.
  intros Hb.
  assert (Hrel : forall rest, path <> "/" ++ rest).
  { intros rest ->. discriminate Hb. }
  split; [intros q; by apply expandAncestorsOf_relative|].
  intros Hno. apply set_eq. intros q.
  rewrite (expandAncestorsOf_relative path s q Hrel).
  split; [|by left]. intros [Hq | [rest ->]]; [exact Hq|].
  exfalso. clear -Hno. induction q as [|c q IH].
  - discriminate Hno.
  - simpl in Hno. apply orb_false_iff in Hno as [_ Hno]. by apply IH.
Qed.

Lemma expandAncestorsOf_relative_path_witness :
  ("docs/2024" ∈ expandAncestorsOf "docs/2024/q1/report.pdf" ∅
   /\ "docs/2024/q1/report.pdf" ∉ expandAncestorsOf "docs/2024/q1/report.pdf" ∅)
  /\ expandAncestorsOf "report.pdf" ∅ = ∅.
Proof.
  destruct (expandAncestorsOf_relative_path "docs/2024/q1/report.pdf" ∅ eq_refl)
    as [Hiff _].
  destruct (expandAncestorsOf_relative_path "report.pdf" ∅ eq_refl)
    as [_ Hnone].
  split; [split|].
  - apply Hiff. right. by exists "q1/report.pdf".
  - intros [Hin | [rest Hr]]%Hiff; [by apply not_elem_of_empty in Hin|].
    clear -Hr. revert Hr. generalize "docs/2024/q1/report.pdf" at 1 2.
    intros t Ht. induction t as [|c t IH]; [discriminate|].
    injection Ht as Ht. by apply IH.
  - by apply Hnone.
Defined.

(** ** The rendered tree *)

Section Tree.

(** Induction on a tree, with the hypothesis for every child. *)
Lemma tree_ind (P : TreeNode.t -> Prop) :
  (forall path name type children,
     Forall P children -> P (TreeNode.mk path name type children)) ->
  forall node, P node.
Proof.
  intros H. fix IH 1. intros [path name type children]. apply H.
  induction children as [|child children IHc]; constructor;
    [apply IH | exact IHc].
Qed.

Lemma folderPaths_child node child p :
  In child (TreeNode.children node) ->
  In p (folderPaths child) -> In p (folderPaths node).
Proof.
  unfold folderPaths. intros Hc (n & <- & Hn)%in_map_iff.
  apply filter_In in Hn as [Hn Hf].
  apply in_map. apply filter_In. split; [|exact Hf].
  destruct node as [path name type children]. simpl in *.
  right. apply in_flat_map. by exists child.
Qed.

(** What is rendered depends on the expansion set only through the paths of
    the folders of the tree. *)
Lemma renderTree_ext (e1 e2 : gset string) : forall node,
  (forall p, In p (folderPaths node) -> p ∈ e1 <-> p ∈ e2) ->
  renderTree e1 node = renderTree e2 node.
Proof.
  induction node as [path name type children IH] using tree_ind.
  intros Hagree. cbn [renderTree TreeNode.type TreeNode.path TreeNode.children].
  f_equal. destruct type; [|reflexivity].
  assert (He : isExpanded path e1 = isExpanded path e2).
  { apply bool_decide_ext, Hagree. by left. }
  rewrite He. destruct (isExpanded path e2); [|reflexivity].
  assert (Hch : forall child, In child children ->
            renderTree e1 child = renderTree e2 child).
  { intros child Hc. rewrite Forall_forall in IH.
    apply IH; [by apply list_elem_of_In|].
    intros p Hp. apply Hagree.
    by apply (folderPaths_child (TreeNode.mk path name TreeNode.folder children) child). }
  clear -Hch. induction children as [|c cs IHc]; [reflexivity|].
  simpl. rewrite (Hch c) by (by left). f_equal.
  apply IHc. intros child Hc. apply Hch. by right.
Qed.

Lemma renderTree_allNodes (e : gset string) : forall node n,
  In n (renderTree e node) -> In n (allNodes node).
Proof.
  induction node as [path name type children IH] using tree_ind.
  intros n. cbn [renderTree allNodes TreeNode.type TreeNode.path TreeNode.children].
  intros [Hn | Hn]; [by left|]. right.
  destruct type; [|destruct Hn].
  destruct (isExpanded path e); [|destruct Hn].
  apply in_flat_map in Hn as (child & Hc & Hn).
  apply in_flat_map. exists child. split; [exact Hc|].
  rewrite Forall_forall in IH. apply IH; [by apply list_elem_of_In | exact Hn].
Qed.

End Tree.

(** X13: stale entries of the expansion set are harmless: the rendered tree
    depends on the set only through the paths of the folders the tree
    contains, so adding or removing any other path changes nothing on
    screen; and only nodes of the tree are ever rendered. *)
Theorem renderTree_ignores_stale_entries
    (e : gset string) (p : string) (node : TreeNode.t) :
  ~ In p (folderPaths node) ->
  renderTree ({[p]} ∪ e) node = renderTree e node
  /\ renderTree (e ∖ {[p]}) node = renderTree e node
  /\ (forall n, In n (renderTree e node) -> In n (allNodes node)).
Proof.
  intros Hp. split; [|split].
  - apply renderTree_ext. intros q Hq.
    rewrite elem_of_union, elem_of_singleton. split; [|by right].
    intros [-> | H]; [by destruct Hp | exact H].
  - apply renderTree_ext. intros q Hq.
    rewrite elem_of_difference, elem_of_singleton. split; [by intros [H _]|].
    intros H. split; [exact H|]. intros ->. by destruct Hp.
  - apply renderTree_allNodes.
Qed.

Lemma renderTree_ignores_stale_entries_witness :
  renderTree ({["/a/b/c.txt"]} ∪ {["/a"]}) Sample.folderA =
  renderTree {["/a"]} Sample.folderA.
Proof.
  apply (renderTree_ignores_stale_entries {["/a"]} "/a/b/c.txt" Sample.folderA).
  simpl. intros [H | [H | []]]; discriminate H.
Defined.

Section NoLeadingSlash.

Lemma split_parts_slash_free s :
  Forall (fun part => occurs "/" part = false) (JS.split "/" s).
Proof.
  induction s as [|c s IH]; cbn [JS.split]; [by repeat constructor|].
  destruct (Ascii.eqb c "/") eqn:Hc; [by constructor|].
  destruct (JS.split "/" s) as [|p ps]; [by repeat constructor; simpl; rewrite Hc|].
  apply Forall_cons in IH as [Hp Hps]. constructor; [|exact Hps].
  simpl. by rewrite Hc, Hp.
Qed.

Lemma beginsWithSlash_step cur part :
  beginsWithSlash cur = false -> occurs "/" part = false ->
  beginsWithSlash (cur ++ (if JS.truthy cur then "/" else "") ++ part) = false.
Proof.
  intros Hcur Hpart. destruct cur as [|c cur]; [|exact Hcur].
  change ("" ++ "" ++ part) with part.
  destruct part as [|x part]; [reflexivity|].
  simpl in Hpart. apply orb_false_iff in Hpart as [Hx _]. exact Hx.
Qed.

Lemma foldl_expandStep_no_slash q ps : forall cur (s : gset string),
  Forall (fun part => occurs "/" part = false) ps ->
  beginsWithSlash cur = false ->
  q ∈ snd (foldl expandStep (cur, s) ps) ->
  q ∈ s \/ beginsWithSlash q = false.
Proof.
  induction ps as [|p ps IH]; intros cur s Hps Hcur; simpl; [by left|].
  apply Forall_cons in Hps as [Hp Hps].
  set (cur' := cur ++ (if JS.truthy cur then "/" else "") ++ p).
  change (expandStep (cur, s) p) with (cur', {[cur']} ∪ s).
  assert (Hcur' : beginsWithSlash cur' = false)
    by (by apply beginsWithSlash_step).
  intros [Hq | Hq]%(IH _ _ Hps Hcur'); [|by right].
  apply elem_of_union in Hq as [->%elem_of_singleton | Hq]; [by right | by left].
Qed.

(** The loop never adds a path that begins with a slash. *)
Lemma expandAncestorsOf_no_slash path (s : gset string) q :
  q ∈ expandAncestorsOf path s -> q ∈ s \/ beginsWithSlash q = false.
Proof.
  unfold expandAncestorsOf. apply foldl_expandStep_no_slash; [|reflexivity].
  apply Forall_take, split_parts_slash_free.
Qed.

End NoLeadingSlash.

(** X14: activating a search result never inserts a path that begins with
    a slash.  So in a tree whose folder paths all begin with a slash, as the
    paths under the corpus root do, activating a result opens no folder: the
    rendered tree is the same after the click as before. *)
Theorem handleResultClick_opens_no_absolute_folder
    (result : SearchResult.t) (w : World) (root : TreeNode.t) :
  (forall q, q ∈ expandedPaths (app (handleResultClick result w)) ->
             q ∈ expandedPaths (app w) \/ beginsWithSlash q = false)
  /\ ((forall p, In p (folderPaths root) -> beginsWithSlash p = true) ->
      renderTree (expandedPaths (app (handleResultClick result w))) root =
      renderTree (expandedPaths (app w)) root).
Proof.
  split.
  - intros q. apply expandAncestorsOf_no_slash.
  - intros Habs. apply renderTree_ext. intros p Hp. simpl. split.
    + intros [H | H]%expandAncestorsOf_no_slash; [exact H|].
      rewrite (Habs p Hp) in H. discriminate.
    + intros H. rewrite expandAncestorsOf_union. apply elem_of_union. by right.
Qed.

Lemma handleResultClick_opens_no_absolute_folder_witness :
  renderTree (expandedPaths (app (handleResultClick Sample.resultA initialWorld)))
    Sample.root = [Sample.root].
Proof.
  destruct (handleResultClick_opens_no_absolute_folder Sample.resultA
              initialWorld Sample.root) as [_ Hsame].
  rewrite Hsame; [reflexivity|].
  simpl. intros p [<- | []]. reflexivity.
Defined.

(** ** The path sent for a selected file *)

Section Replace.

Lemma prefix_true p : forall s,
  String.prefix p s = true -> exists r, s = p ++ r.
Proof.
  induction p as [|a p IH]; intros s; [by exists s|].
  destruct s as [|b s]; simpl; [discriminate|].
  destruct (ascii_dec a b) as [<- | _]; [|discriminate].
  intros [r ->]%IH. by exists r.
Qed.

(** Without an occurrence of the pattern, [replace] returns its argument. *)
Lemma replace_absent pat rep : forall s,
  (forall a b, s <> a ++ pat ++ b) -> JS.replace pat rep s = s.
Proof.
  induction s as [|c s IH]; intros Habs.
  - cbn [JS.replace]. destruct (String.prefix pat "") eqn:Hp; [|reflexivity].
    apply prefix_true in Hp as [r Hr]. by destruct (Habs "" r).
  - cbn [JS.replace]. destruct (String.prefix pat (String c s)) eqn:Hp.
    + apply prefix_true in Hp as [r Hr]. by destruct (Habs "" r).
    + f_equal. apply IH. intros a b ->. by destruct (Habs (String c a) b).
Qed.

End Replace.

(** X15: the corpus root is cut out of a node's path where it first occurs,
    not only in front: after a slash-free prefix it is removed all the same
    and the prefix is glued to what follows.  For a node whose path does not
    contain the corpus root at all, the document is requested under the
    whole path. *)
Theorem handleFileSelect_corpus_root_anywhere (node : TreeNode.t) (w : World) :
  (forall a b,
     occurs "/" a = false ->
     TreeNode.path node = a ++ corpusRoot ++ b ->
     inflight (handleFileSelect node w) =
       (inflight w ++
        [(fresh w, (GetDocumentByPath (a ++ b), K_handleFileSelect))])%list)
  /\ ((forall a b, TreeNode.path node <> a ++ corpusRoot ++ b) ->
      inflight (handleFileSelect node w) =
        (inflight w ++
         [(fresh w, (GetDocumentByPath (TreeNode.path node), K_handleFileSelect))])%list).
Proof.
  split.
  - intros a b Ha Hp. simpl. rewrite Hp.
    enough (Hrep : JS.replace corpusRoot "" (a ++ corpusRoot ++ b) = a ++ b)
      by (by rewrite Hrep).
    clear Hp. induction a as [|c a IH].
    + exact (replace_prefix corpusRoot b).
    + simpl in Ha. apply orb_false_iff in Ha as [Hc Ha].
      change (String c a ++ corpusRoot ++ b)
        with (String c (a ++ corpusRoot ++ b)).
      cbn [JS.replace].
      assert (Hpre : String.prefix corpusRoot (String c (a ++ corpusRoot ++ b))
                     = false).
      { unfold corpusRoot. cbn [String.prefix].
        destruct (ascii_dec "/" c) as [<- | _]; [discriminate Hc | reflexivity]. }
      rewrite Hpre. change (String c a ++ b) with (String c (a ++ b)).
      f_equal. by apply IH.
  - intros Habs. simpl. by rewrite replace_absent.
Qed.

Lemma handleFileSelect_corpus_root_anywhere_witness :
  inflight (handleFileSelect
              (TreeNode.mk "mnt/var/www/html/MPK/doc/a.txt" "a.txt" TreeNode.file [])
              initialWorld) =
    [(0, (GetDocumentByPath "mnta.txt", K_handleFileSelect))]
  /\ inflight (handleFileSelect Sample.nodeC initialWorld) =
       [(0, (GetDocumentByPath "/a/b/c.txt", K_handleFileSelect))].
Proof.
  split.
  - apply (proj1 (handleFileSelect_corpus_root_anywhere
                    (TreeNode.mk "mnt/var/www/html/MPK/doc/a.txt" "a.txt"
                       TreeNode.file []) initialWorld) "mnt" "a.txt");
      reflexivity.
  - apply (proj2 (handleFileSelect_corpus_root_anywhere Sample.nodeC initialWorld)).
    intros a b H. simpl in H.
    assert (Hlen : String.length "/a/b/c.txt" =
                   String.length (a ++ corpusRoot ++ b)) by (by rewrite <- H).
    rewrite !length_append in Hlen. simpl in Hlen. lia.
Defined.

(** ** File icons *)

Section Icons.

Lemma split_absent sep s : occurs sep s = false -> JS.split sep s = [s].
Proof.
  induction s as [|c s IH]; [reflexivity|]. simpl.
  intros [Hc Hs]%orb_false_iff. by rewrite Hc, IH.
Qed.

(** Splitting distributes over a separator. *)
Lemma split_append sep a b :
  JS.split sep (a ++ String sep b) = (JS.split sep a ++ JS.split sep b)%list.
Proof.
  induction a as [|c a IH].
  - change ("" ++ String sep b) with (String sep b).
    cbn [JS.split]. by rewrite Ascii.eqb_refl.
  - change (String c a ++ String sep b) with (String c (a ++ String sep b)).
    cbn [JS.split]. rewrite IH.
    destruct (Ascii.eqb c sep); [reflexivity|].
    pose proof (split_nonempty sep a) as Hne.
    by destruct (JS.split sep a).
Qed.

Lemma splitPop_append sep base ext :
  occurs sep ext = false -> splitPop sep (base ++ String sep ext) = ext.
Proof.
  intros He. unfold splitPop.
  rewrite split_append, (split_absent sep ext He). apply last_last.
Qed.

End Icons.

(** X16: the icon of a file is decided by what follows the last dot of its
    name, whatever its case and whatever is expanded; a name without a dot
    counts as an extension in full.  Word and Excel extensions have their
    own icons, text files too, and everything else is shown as a PDF. *)
Theorem getIcon_by_extension (node : TreeNode.t) (expanded : gset string) :
  TreeNode.type node = TreeNode.file ->
  (forall base ext,
     TreeNode.name node = base ++ "." ++ ext -> occurs "." ext = false ->
     getIcon node expanded = iconOfExtension (toLowerCase ext))
  /\ (occurs "." (TreeNode.name node) = false ->
      getIcon node expanded = iconOfExtension (toLowerCase (TreeNode.name node)))
  /\ (getIcon node expanded = page_facing_up \/ getIcon node expanded = memo
      \/ getIcon node expanded = bar_chart \/ getIcon node expanded = page_with_curl).
Proof.
  intros Hty. unfold getIcon. rewrite Hty. split; [|split].
  - intros base ext -> He.
    change (base ++ "." ++ ext) with (base ++ String "." ext).
    by rewrite splitPop_append.
  - intros Hn. unfold splitPop. by rewrite split_absent.
  - unfold iconOfExtension.
    repeat (match goal with |- context [if ?b then _ else _] => destruct b end);
      auto.
Qed.

Lemma getIcon_by_extension_witness :
  getIcon (TreeNode.mk "/docs/Report.final.DOCX" "Report.final.DOCX" TreeNode.file [])
    ∅ = memo
  /\ getIcon (TreeNode.mk "/docs/TXT" "TXT" TreeNode.file []) ∅ = page_with_curl.
Proof.
  split.
  - destruct (getIcon_by_extension
                (TreeNode.mk "/docs/Report.final.DOCX" "Report.final.DOCX"
                   TreeNode.file []) ∅ eq_refl) as (Hext & _).
    by rewrite (Hext "Report.final" "DOCX").
  - destruct (getIcon_by_extension
                (TreeNode.mk "/docs/TXT" "TXT" TreeNode.file []) ∅ eq_refl)
      as (_ & Hname & _).
    by rewrite Hname.
Defined.

(** ** The rescan button *)

Section RescanButton.

Lemma take_out_In {A : Type} id (l : list (nat * A)) : forall a rest,
  take_out id l = Some (a, rest) ->
  In (id, a) l /\ (forall e, In e rest -> In e l).
Proof.
  induction l as [|[i b] l IH]; intros a rest; simpl; [discriminate|].
  destruct (Nat.eqb_spec i id) as [-> | Hne].
  - intros [= <- <-]. split; [by left | by right].
  - destruct (take_out id l) as [[c r]|]; [|discriminate].
    intros [= <- <-]. destruct (IH c r eq_refl) as [Hin Hrest].
    split; [by right|]. intros e [<- | He]; [by left | right; by apply Hrest].
Qed.

Lemma noStatsAhead_step w e w' :
  noStatsAhead w -> offered (app w) e -> step w e = Some w' -> noStatsAhead w'.
Proof.
  intros (Hs & Ht & Hf) Ho Hstep.
  destruct e; simpl in Hstep, Ho; try injection Hstep as <-.
  - destruct Ho.
  - done.
  - unfold handleSearch. destruct (negb _); [done|].
    split; [exact Hs|]. split; [exact Ht|]. simpl.
    apply Forall_app. split; [exact Hf|]. by repeat constructor.
  - unfold handleClick. destruct (TreeNode.type node); [done|].
    split; [exact Hs|]. split; [exact Ht|]. simpl.
    apply Forall_app. split; [exact Hf|]. by repeat constructor.
  - done.
  - done.
  - done.
  - destruct Ho as [_ [x Hx]]. congruence.
  - destruct (take_out id (inflight w)) as [[[r k] rest]|] eqn:Hto; [|discriminate].
    destruct (take_out_In _ _ _ _ Hto) as [Hin Hrest].
    assert (Hk : k <> K_loadStats /\ k <> K_triggerRescan).
    { rewrite Forall_forall in Hf. apply (Hf (id, (r, k))).
      by apply list_elem_of_In. }
    assert (Hf' : Forall (fun e => snd (snd e) <> K_loadStats
                                   /\ snd (snd e) <> K_triggerRescan) rest).
    { rewrite Forall_forall in *. intros x Hx%list_elem_of_In.
      apply Hf, list_elem_of_In, Hrest, Hx. }
    destruct Hk as [Hk1 Hk2].
    destruct k, o as [|[ | | | | [|] ]]; simpl in Hstep; try discriminate;
      try congruence; by injection Hstep as <-.
  - rewrite Ht in Hstep. discriminate.
Qed.

End RescanButton.

(** X17: the rescan button is rendered only next to loaded statistics, and
    statistics are requested only when the application is mounted and after
    a rescan.  So once the first statistics request has failed and no rescan
    is under way, no sequence of events the screen offers brings the
    statistics, or the button, back: no rescan is ever triggered. *)
Theorem no_rescan_without_stats (w : World) (es : list Event) (w' : World) :
  noStatsAhead w ->
  plays w es w' ->
  stats (app w') = None
  /\ ~ In ClickRescan es
  /\ (forall sidebar main, render (app w') <> AppView sidebar true main).
Proof.
  intros Hw Hp. induction Hp as [w | w e w1 es w2 Ho Hs Hp IH].
  - destruct Hw as (Hst & _). split; [exact Hst|]. split; [by intros []|].
    intros sidebar main. unfold render. rewrite Hst.
    destruct (isLoading (app w)); [discriminate|].
    rewrite bool_decide_eq_false_2 by (intros [? [=]]). discriminate.
  - destruct (IH (noStatsAhead_step _ _ _ Hw Ho Hs)) as (Hst & Hno & Hr).
    split; [exact Hst|]. split; [|exact Hr].
    intros [-> | Hin]; [|by apply Hno].
    destruct Hw as (Hnone & _). destruct Ho as [_ [x Hx]]. congruence.
Qed.

Lemma no_rescan_without_stats_witness :
  exists w0 w,
    run initialWorld [Mount; Settle 1 Rejected] = Some w0
    /\ plays w0 [Settle 0 (Fulfilled (TreeData (Some Sample.root)));
                 ClickNode Sample.root; InputChange "alpha"] w
    /\ stats (app w) = None.
Proof.
  eexists. eexists. split; [vm_compute; reflexivity|].
  match goal with |- plays ?w0 ?es ?w /\ _ =>
    assert (Hplays : plays w0 es w)
  end.
  { eapply plays_cons; [exact I | vm_compute; reflexivity|].
    eapply plays_cons;
      [split; [reflexivity | exists Sample.root; split; [reflexivity | by left]]
      | vm_compute; reflexivity |].
    eapply plays_cons; [reflexivity | vm_compute; reflexivity|].
    apply plays_nil. }
  split; [exact Hplays|].
  refine (proj1 (no_rescan_without_stats _ _ _ _ Hplays)).
  split; [reflexivity|]. split; [reflexivity|].
  repeat constructor; discriminate.
Defined.

(** ** One search at a time *)

Section OneSearch.

Lemma take_out_count {A : Type} (f : nat * A -> bool) id (l : list (nat * A)) :
  forall a rest,
  take_out id l = Some (a, rest) ->
  length (List.filter f l) =
  length (List.filter f rest) + (if f (id, a) then 1 else 0).
Proof.
  induction l as [|[i b] l IH]; intros a rest; simpl; [discriminate|].
  destruct (Nat.eqb_spec i id) as [-> | Hne].
  - intros [= <- <-]. destruct (f (id, b)); simpl; lia.
  - destruct (take_out id l) as [[c r]|]; [|discriminate].
    intros [= <- <-]. specialize (IH c r eq_refl). simpl.
    destruct (f (i, b)), (f (id, c)); simpl in *; lia.
Qed.

Lemma searchesInFlight_send w r k :
  searchesInFlight (send w r k) =
  searchesInFlight w + (if awaitedByHandleSearch (fresh w, (r, k)) then 1 else 0).
Proof.
  unfold searchesInFlight. simpl. rewrite List.filter_app, length_app. simpl.
  by destruct (awaitedByHandleSearch _).
Qed.

Lemma resume_isSearching k o w w' :
  resume k o w = Some w' ->
  inflight w' = inflight w
  /\ isSearching (app w') =
       match k with K_handleSearch => false | _ => isSearching (app w) end.
Proof.
  intros Hr.
  destruct k, o as [|[ | | | | [|] ]]; simpl in Hr; try discriminate;
    by injection Hr as <-.
Qed.

Lemma oneSearch_step w e w' :
  oneSearch w -> offered (app w) e -> step w e = Some w' -> oneSearch w'.
Proof.
  unfold oneSearch. intros Hw Ho Hs.
  destruct e; simpl in Hs, Ho; try injection Hs as <-; try exact Hw.
  - destruct Ho.
  - destruct Ho as [_ Hfalse]. rewrite Hfalse in Hw.
    unfold handleSearch. destruct (negb _).
    + simpl. by rewrite Hfalse.
    + rewrite searchesInFlight_send. simpl.
      change (searchesInFlight (update w _)) with (searchesInFlight w). lia.
  - unfold handleClick. destruct (TreeNode.type node); [exact Hw|].
    unfold handleFileSelect. cbv zeta.
    rewrite searchesInFlight_send. simpl.
    change (searchesInFlight (update w _)) with (searchesInFlight w). lia.
  - unfold triggerRescan. rewrite searchesInFlight_send. simpl. lia.
  - destruct (take_out id (inflight w)) as [[[r k] rest]|] eqn:Ht; [|discriminate].
    destruct (resume_isSearching _ _ _ _ Hs) as [Hi Hb].
    pose proof (take_out_count awaitedByHandleSearch _ _ _ _ Ht) as Hc.
    unfold searchesInFlight in *. rewrite Hi, Hb. simpl in *.
    unfold awaitedByHandleSearch in Hc at 3. simpl in Hc.
    destruct k, (isSearching (app w)); simpl in *; lia.
  - destruct (take_out id (timers w)) as [[d rest]|]; [|discriminate].
    injection Hs as <-. unfold reload, loadStats, loadFileTree.
    rewrite !searchesInFlight_send. simpl.
    change (searchesInFlight (setTimers w rest)) with (searchesInFlight w). lia.
Qed.

End OneSearch.

(** X6: the submit button is disabled while a search is in flight, so the
    screen never has two searches under way: through every sequence of
    events it offers, [isSearching] is set exactly while one search request
    is in flight, and there is never a second one. *)
Theorem one_search_at_a_time (w : World) (es : list Event) (w' : World) :
  oneSearch w ->
  plays w es w' ->
  oneSearch w' /\ searchesInFlight w' <= 1.
Proof.
  intros Hw Hp.
  assert (H : oneSearch w').
  { induction Hp as [w | w e w1 es w2 Ho Hs Hp IH]; [exact Hw|].
    apply IH. by apply (oneSearch_step w e). }
  split; [exact H|]. unfold oneSearch in H. rewrite H.
  destruct (isSearching (app w')); lia.
Qed.

Lemma one_search_at_a_time_witness :
  exists w0 w,
    run initialWorld (Sample.mounted ++ [InputChange "alpha"]) = Some w0
    /\ plays w0 [SubmitSearch; InputChange "gamma"] w
    /\ searchesInFlight w = 1
    /\ ~ offered (app w) SubmitSearch.
Proof.
  eexists. eexists. split; [vm_compute; reflexivity|].
  match goal with |- plays ?w0 ?es ?w /\ _ =>
    assert (Hplays : plays w0 es w)
  end.
  { eapply plays_cons; [split; reflexivity | vm_compute; reflexivity|].
    eapply plays_cons; [reflexivity | vm_compute; reflexivity|].
    apply plays_nil. }
  split; [exact Hplays|].
  match type of Hplays with plays ?w0 _ _ =>
    assert (Hstart : oneSearch w0) by reflexivity
  end.
  destruct (one_search_at_a_time _ _ _ Hstart Hplays) as [Hone _].
  split; [exact Hone|]. intros [_ H]. discriminate H.
Defined.
